(** * pyzo shell: the text-formatting core of [pyzo/core/shell.py]

    A shallow embedding of [BaseShell.write] and of the [ShellWriter]
    class (tokenizer, escape interpreter, line shortener), followed by the
    properties of the natural-language specification that can be stated on
    it.  Python exceptions are values of an error monad, the Qt text
    document is a list of formatted characters with integer cursors, and
    the dictionary of shell writers is a finite map. *)

From Stdlib Require Import ZArith NArith List Bool Lia String Ascii.
From stdpp Require Import base option gmap.
Import ListNotations.
Open Scope Z_scope.

(** ** Python values and exceptions *)

(** A Python [str] is a sequence of code points. *)
Definition char := N.
Definition str := list char.

Definition BS : char := 8%N.       (* "\b" *)
Definition TAB : char := 9%N.      (* "\t" *)
Definition LF : char := 10%N.      (* "\n" *)
Definition VT : char := 11%N.      (* "\v" *)
Definition CR : char := 13%N.      (* "\r" *)
Definition ESC : char := 27%N.     (* "\x1b" *)
Definition SPACE : char := 32%N.

(** Code points of an ASCII literal, for readable examples. *)
Definition lit (s : string) : str :=
  List.map N_of_ascii (list_ascii_of_string s).

Definition len {A} (l : list A) : Z := Z.of_nat (length l).

(** [s * n] for a sequence [s] and an integer [n]: empty when [n <= 0]. *)
Fixpoint times_nat {A} (l : list A) (n : nat) : list A :=
  match n with
  | O => []
  | S n' => l ++ times_nat l n'
  end.
Definition times {A} (l : list A) (n : Z) : list A := times_nat l (Z.to_nat n).

(** Python slicing [s[lo:hi]]: a negative bound counts from the end, and
    both bounds are clamped to the sequence. *)
Definition clamp_index (n i : Z) : Z :=
  if i <? 0 then Z.max 0 (i + n) else Z.min i n.

Definition slice {A} (s : list A) (lo hi : option Z) : list A :=
  let n := len s in
  let a := clamp_index n (default 0 lo) in
  let b := clamp_index n (default n hi) in
  firstn (Z.to_nat (b - a)) (skipn (Z.to_nat a) s).

Fixpoint str_eqb (a b : str) : bool :=
  match a, b with
  | [], [] => true
  | x :: a', y :: b' => N.eqb x y && str_eqb a' b'
  | _, _ => false
  end.

Inductive exn :=
| AssertionError
| TypeError
| IndexError
| UnicodeDecodeError.

(** Computations that may raise. *)
Definition result (A : Type) : Type := exn + A.
Definition ret {A} (a : A) : result A := inr a.
Definition raise {A} (e : exn) : result A := inl e.
Definition bind {A B} (m : result A) (k : A -> result B) : result B :=
  match m with
  | inl e => inl e
  | inr a => k a
  end.
Notation "'let*' x ':=' m 'in' k" := (bind m (fun x => k))
  (at level 10, x pattern, m at level 100, k at level 200).

(** ** The text widget *)

Module Qt.

Inductive Weight := Light | Normal | Bold.

(** A colour is kept under the name it was built from. *)
Definition QColor := string.
Definition black : QColor := "#000000"%string.

(** [QTextCharFormat] as a property map restricted to the four
    properties the shell sets; an unset property is [None]. *)
Record QTextCharFormat := {
  fontWeight : option Weight;
  fontItalic : option bool;
  fontUnderline : option bool;
  foreground : option QColor
}.

Definition emptyFormat : QTextCharFormat :=
  {| fontWeight := None; fontItalic := None; fontUnderline := None;
     foreground := None |}.

Definition setFontWeight (w : Weight) (f : QTextCharFormat) :=
  {| fontWeight := Some w; fontItalic := fontItalic f;
     fontUnderline := fontUnderline f; foreground := foreground f |}.
Definition setFontItalic (b : bool) (f : QTextCharFormat) :=
  {| fontWeight := fontWeight f; fontItalic := Some b;
     fontUnderline := fontUnderline f; foreground := foreground f |}.
Definition setFontUnderline (b : bool) (f : QTextCharFormat) :=
  {| fontWeight := fontWeight f; fontItalic := fontItalic f;
     fontUnderline := Some b; foreground := foreground f |}.
Definition setForeground (c : QColor) (f : QTextCharFormat) :=
  {| fontWeight := fontWeight f; fontItalic := fontItalic f;
     fontUnderline := fontUnderline f; foreground := Some c |}.
(** [f.foreground().color()]: the colour of an unset brush is black. *)
Definition foregroundColor (f : QTextCharFormat) : QColor :=
  default black (foreground f).

(** Modelled from the spec: the buffer/cursor capability of section 6
    (Qt's [QPlainTextEdit], [QTextDocument] and [QTextCursor], which
    are not part of the repository).  The document is the sequence of
    its characters, each with its format; a line feed separates two
    rows (blocks).  A cursor is a position between two characters with
    the [keepPositionOnInsert] flag.  The cap on the number of rows is
    not modelled. *)
Definition cell : Type := char * QTextCharFormat.
Definition QTextDocument := list cell.

Record QTextCursor := {
  position : nat;
  keepPositionOnInsert : bool
}.

Definition setPosition (p : nat) (c : QTextCursor) : QTextCursor :=
  {| position := p; keepPositionOnInsert := keepPositionOnInsert c |}.
Definition setKeepPositionOnInsert (b : bool) (c : QTextCursor) : QTextCursor :=
  {| position := position c; keepPositionOnInsert := b |}.

(** Column of position [p]: the number of characters between the last
    line feed before [p] and [p]. *)
Fixpoint column_after (col : nat) (d : QTextDocument) : nat :=
  match d with
  | [] => col
  | (c, _) :: d' => column_after (if N.eqb c LF then O else S col) d'
  end.
Definition positionInBlock (d : QTextDocument) (p : nat) : Z :=
  Z.of_nat (column_after O (firstn p d)).

(** The character format at position [p] is the one of the character
    before it. *)
Definition charFormat (d : QTextDocument) (p : nat) : QTextCharFormat :=
  match p with
  | O => emptyFormat
  | S q => match nth_error d q with Some (_, f) => f | None => emptyFormat end
  end.

Definition insertAt (p : nat) (cs : list cell) (d : QTextDocument) : QTextDocument :=
  firstn p d ++ cs ++ skipn p d.
Definition removeRange (a b : nat) (d : QTextDocument) : QTextDocument :=
  firstn a d ++ skipn b d.

(** How a cursor follows an insertion of [n] characters at [p]: it
    moves when the text goes in before it, and at its own position it
    moves unless it keeps its position on insert. *)
Definition afterInsert (p n : nat) (c : QTextCursor) : QTextCursor :=
  if (p <? position c)%nat then setPosition (position c + n) c
  else if (p =? position c)%nat then
    (if keepPositionOnInsert c then c else setPosition (position c + n) c)
  else c.

(** How a cursor follows the removal of the range from [a] to [b]. *)
Definition afterRemove (a b : nat) (c : QTextCursor) : QTextCursor :=
  if (position c <=? a)%nat then c
  else if (position c <=? b)%nat then setPosition a c
  else setPosition (position c - (b - a)) c.

Definition styled (s : str) (f : QTextCharFormat) : list cell :=
  List.map (fun c => (c, f)) s.

End Qt.
Export Qt.

(** ** The shell's document and cursors *)

(** The document of the shell widget with the three cursors the shell
    keeps on it.  Every edit of the document moves all of them. *)
Record Widget := {
  document : QTextDocument;
  _cursor1 : QTextCursor;
  _cursor2 : QTextCursor;
  _lastCommandCursor : QTextCursor
}.

(** The cursor objects of the shell that [writeText] is called with. *)
Inductive cursorRef := Cursor1 | Cursor2.

(** The variable [cursor] of [writeText]: one of the shell's cursor
    objects, or the copy made of it, which nothing else refers to. *)
Inductive workCursor :=
| Shared (r : cursorRef)
| Own (c : QTextCursor).

Definition cursorOf (w : Widget) (r : cursorRef) : QTextCursor :=
  match r with Cursor1 => _cursor1 w | Cursor2 => _cursor2 w end.

Definition setCursor (r : cursorRef) (c : QTextCursor) (w : Widget) : Widget :=
  match r with
  | Cursor1 => {| document := document w; _cursor1 := c; _cursor2 := _cursor2 w;
                  _lastCommandCursor := _lastCommandCursor w |}
  | Cursor2 => {| document := document w; _cursor1 := _cursor1 w; _cursor2 := c;
                  _lastCommandCursor := _lastCommandCursor w |}
  end.

Definition current (w : Widget) (k : workCursor) : QTextCursor :=
  match k with Shared r => cursorOf w r | Own c => c end.

(** An edit: the new document, and every cursor following it. *)
Definition edit (d : QTextDocument) (follow : QTextCursor -> QTextCursor)
    (w : Widget) (k : workCursor) : Widget * workCursor :=
  ({| document := d; _cursor1 := follow (_cursor1 w); _cursor2 := follow (_cursor2 w);
      _lastCommandCursor := follow (_lastCommandCursor w) |},
   match k with Shared r => Shared r | Own c => Own (follow c) end).

(** [cursor.insertText(s, format)] *)
Definition insertCells (cs : list cell) (w : Widget) (k : workCursor)
  : Widget * workCursor :=
  let p := position (current w k) in
  edit (insertAt p cs (document w)) (afterInsert p (length cs)) w k.

Definition insertText (s : str) (format : QTextCharFormat) (w : Widget)
    (k : workCursor) : Widget * workCursor :=
  insertCells (styled s format) w k.

(** [cursor.insertText("\n")]: the text takes the format at the cursor. *)
Definition insertNewline (w : Widget) (k : workCursor) : Widget * workCursor :=
  let p := position (current w k) in
  insertCells [(LF, charFormat (document w) p)] w k.

(** The selection between [a] and [b] removed. *)
Definition removeBetween (a b : nat) (w : Widget) (k : workCursor)
  : Widget * workCursor :=
  let lo := Nat.min a b in
  let hi := Nat.max a b in
  edit (removeRange lo hi (document w)) (afterRemove lo hi) w k.

(** [cursor.movePosition(Left, KeepAnchor, n); cursor.removeSelectedText()] *)
Definition removeLeft (n : Z) (w : Widget) (k : workCursor) : Widget * workCursor :=
  let p := position (current w k) in
  removeBetween (p - Z.to_nat n) p w k.

Definition moveTo (p : nat) (w : Widget) (k : workCursor) : Widget * workCursor :=
  match k with
  | Shared r => (setCursor r (setPosition p (cursorOf w r)) w, k)
  | Own c => (w, Own (setPosition p c))
  end.

(** [cursor.movePosition(Left, MoveAnchor, n)]: as far as the document goes. *)
Definition moveLeft (n : Z) (w : Widget) (k : workCursor) : Widget * workCursor :=
  moveTo (position (current w k) - Z.to_nat n) w k.

(** [cursor.movePosition(Right, MoveAnchor, n)] *)
Definition moveRight (n : Z) (w : Widget) (k : workCursor) : Widget * workCursor :=
  moveTo (Nat.min (position (current w k) + Z.to_nat n) (length (document w))) w k.

(** ** ShellWriter *)

(** The solarised colour theme. *)
Definition COLORS : list QColor :=
  ["#657b83"; "#dc322f"; "#859900"; "#b58900";
   "#268bd2"; "#d33682"; "#2aa198"; "#eee8d5"]%string.

Definition _linebreaks : str := [LF; 8232; 8233; 64976; 64977]%N.

Definition in_str (c : char) (s : str) : bool := existsb (N.eqb c) s.

(** *** [_reSplit]

    The delimiters of the pattern: one line break, one tab or one escape
    character, or a run of vertical tabs, of carriage returns or of
    backspaces. *)

(** Characters that are a token of their own. *)
Definition isSingle (c : char) : bool :=
  in_str c _linebreaks || N.eqb c TAB || N.eqb c ESC.
(** Characters whose runs are one token. *)
Definition isRun (c : char) : bool :=
  N.eqb c VT || N.eqb c CR || N.eqb c BS.
Definition isPlain (c : char) : bool := negb (isSingle c || isRun c).

(** [joins c d]: [c], put in front of a token that starts with [d],
    belongs to that token. *)
Definition joins (c d : char) : bool :=
  if isSingle c then false
  else if isRun c then N.eqb c d
  else isPlain d.

(** [[s for s in self._reSplit.split(text2) if s != ""]]: the text cut
    into delimiters and the maximal runs of text between them. *)
Fixpoint reSplit (s : str) : list str :=
  match s with
  | [] => []
  | c :: s' =>
    match reSplit s' with
    | (d :: t) :: rest =>
        if joins c d then (c :: d :: t) :: rest else [c] :: (d :: t) :: rest
    | rest => [c] :: rest
    end
  end.

(** Python's [\d] and [int] accept every Unicode decimal digit.  The
    table of those digits belongs to the interpreter, not to the
    repository: it is a parameter, known on the ASCII range; the line
    breaks and control characters that delimit tokens are no digits. *)
Class DigitTable := {
  digit_value : char -> option Z;
  digit_value_ascii : forall c : char,
    (48 <= c <= 57)%N -> digit_value c = Some (Z.of_N c - 48);
  digit_value_other : forall c : char,
    (c < 48 \/ 57 < c < 128)%N -> digit_value c = None;
  digit_value_range : forall c v, digit_value c = Some v -> 0 <= v <= 9;
  digit_value_plain : forall c : char, isPlain c = false -> digit_value c = None
}.

(** The table with the ASCII digits only. *)
Definition ascii_digit_value (c : char) : option Z :=
  if ((48 <=? c) && (c <=? 57))%N then Some (Z.of_N c - 48) else None.

#[export] Program Instance ascii_digits : DigitTable :=
  {| digit_value := ascii_digit_value |}.
Next Obligation.
  intros c Hc. unfold ascii_digit_value.
  destruct (N.leb_spec 48 c), (N.leb_spec c 57); simpl; try reflexivity; lia.
Qed.
Next Obligation.
  intros c Hc. unfold ascii_digit_value.
  destruct (N.leb_spec 48 c), (N.leb_spec c 57); simpl; try reflexivity; lia.
Qed.
Next Obligation.
  intros c v. unfold ascii_digit_value.
  destruct (N.leb_spec 48 c), (N.leb_spec c 57); simpl; intros [= <-]; lia.
Qed.
Next Obligation.
  intros c Hc. unfold ascii_digit_value.
  destruct (N.leb_spec 48 c), (N.leb_spec c 57); simpl; try reflexivity.
  unfold isPlain, isSingle, isRun, in_str, _linebreaks in Hc.
  cbn [existsb] in Hc. apply negb_false_iff in Hc.
  repeat (apply orb_true_iff in Hc as [Hc|Hc]);
    try discriminate Hc; apply N.eqb_eq in Hc; subst c;
    unfold LF, TAB, ESC, VT, CR, BS in *; lia.
Qed.

(** What a line under construction and the list of finished lines hold:
    strings, formats and the end column. *)
Inductive elem :=
| Str (s : str)
| Fmt (f : QTextCharFormat)
| Int (n : Z).

(** An element of [finishedLines]: a line, which is a list, or whatever
    else was put into the list. *)
Inductive entry :=
| Line (l : list elem)
| Loose (e : elem).

Record ShellWriter := {
  _currentFormat : option QTextCharFormat;
  _unfinishedTail : str;
  _lineShorteningActive : bool
}.

(** [ShellWriter()] *)
Definition ShellWriter_init : ShellWriter :=
  {| _currentFormat := None; _unfinishedTail := []; _lineShorteningActive := false |}.

Section Writer.
Context {digits : DigitTable}.

(** *** [_reFormatPattern]

    The pattern: the escape character, an opening bracket, one or more
    digits, any number of groups made of a semicolon and one or more
    digits, and the letter m.  Group 1 is the whole match, group 2 the
    digits and semicolons. *)

Inductive scanState :=
| NeedDigit
| InNumber (n : Z).

(** The parameters after "ESC [": returns the integers of group 2 and
    the length of group 1, [k] being the length matched so far. *)
Fixpoint reParams (st : scanState) (seen : list Z) (k : Z) (s : str)
  : option (list Z * Z) :=
  match s with
  | [] => None
  | c :: s' =>
    match digit_value c, st with
    | Some v, NeedDigit => reParams (InNumber v) seen (k + 1) s'
    | Some v, InNumber n => reParams (InNumber (10 * n + v)) seen (k + 1) s'
    | None, InNumber n =>
        if N.eqb c 59 (* ; *) then reParams NeedDigit (seen ++ [n]) (k + 1) s'
        else if N.eqb c 109 (* m *) then Some (seen ++ [n], k + 1)
        else None
    | None, NeedDigit => None
    end
  end.

(** [self._reFormatPattern.match(text)], with [mo[2]] already split at
    ";" and converted by [int], and [len(mo[1])]. *)
Definition reFormatPattern_match (text : str) : option (list Z * Z) :=
  match text with
  | c0 :: c1 :: rest =>
      if N.eqb c0 ESC && N.eqb c1 91 (* [ *) then reParams NeedDigit [] 2 rest
      else None
  | _ => None
  end.

(** The truth value of a match object. *)
Definition matched {A} (mo : option A) : bool :=
  match mo with Some _ => true | None => false end.

Definition applyParam (defaultFormat : QTextCharFormat)
    (format : QTextCharFormat) (param : Z) : QTextCharFormat :=
  if param =? 0 then defaultFormat
  else if param =? 1 then setFontWeight Bold format
  else if param =? 2 then setFontWeight Light format
  else if param =? 3 then setFontItalic true format
  else if param =? 4 then setFontUnderline true format
  else if param =? 22 then setFontWeight Normal format
  else if param =? 23 then setFontItalic false format
  else if param =? 24 then setFontUnderline false format
  else if (30 <=? param) && (param <=? 37) then
    match nth_error COLORS (Z.to_nat (param - 30)) with
    | Some clr => setForeground clr format
    | None => format
    end
  else if param =? 39 then setForeground (foregroundColor defaultFormat) format
  else format.

(** [parseFormat]: [None] stands for the pair [(None, None)]. *)
Definition parseFormat (text : str) (currentFormat defaultFormat : QTextCharFormat)
  : option (QTextCharFormat * Z) :=
  match reFormatPattern_match text with
  | None => None
  | Some (params, matchLen) =>
      Some (fold_left (applyParam defaultFormat) params currentFormat, matchLen)
  end.

(** *** The loop of [writeText] over the tokens *)

(** The local variables of [writeText] that the loop updates. *)
Record Scan := {
  ll : list elem;
  finishedLines : list entry;
  posInBlock : Z;
  leftLimit : Z;
  lowestPosInFirstBlock : Z;
  unfinishedTailNew : str;
  currentFormat : QTextCharFormat
}.

(** The loop of the backspace branch, on the reversed line: trims the
    strings from the last one backwards until [n] characters are gone.
    Returns the line (still reversed), what is left of [n] and the
    column. *)
Fixpoint eraseBack (r : list elem) (n pos : Z) : list elem * Z * Z :=
  match r with
  | [] => ([], n, pos)
  | Str v :: r' =>
      let numBackspace := Z.min n (len v) in
      let v' := slice v None (Some (len v - numBackspace)) in
      if n - numBackspace =? 0 then (Str v' :: r', 0, pos - numBackspace)
      else
        let '(r'', n', pos') := eraseBack r' (n - numBackspace) (pos - numBackspace) in
        (Str v' :: r'', n', pos')
  | e :: r' =>
      let '(r'', n', pos') := eraseBack r' n pos in (e :: r'', n', pos')
  end.

(** One iteration of the loop, for the token [s] followed by the tokens
    [rest].  The second component is the next token when the iteration
    replaced it (the escape branch cuts the matched characters off it). *)
Definition step (defaultFormat : QTextCharFormat) (s : str) (rest : list str)
    (st : Scan) : Scan * option str :=
  let '(Build_Scan ll finishedLines posInBlock leftLimit lowest tail fmt) := st in
  match s with
  | [] => (st, None)
  | c :: _ =>
    if in_str c _linebreaks then
      let posInBlock := posInBlock + 1 in
      (Build_Scan [] (finishedLines ++ [Line (ll ++ [Str [LF]; Int posInBlock])])
         0 0 lowest tail fmt, None)
    else if N.eqb c TAB then
      let tabwidth := 8 in
      let numSpaces := tabwidth - posInBlock mod tabwidth in
      let s := times [SPACE] numSpaces in
      (Build_Scan (ll ++ [Str s]) finishedLines (posInBlock + len s)
         leftLimit lowest tail fmt, None)
    else if N.eqb c VT then
      let n := len s in
      let leftLimit := 0 in
      (Build_Scan [Str (times [SPACE] posInBlock)]
         ((finishedLines ++ [Line (ll ++ [Str [LF]; Int (posInBlock + 1)])])
            ++ List.map Loose (times [Str [LF]; Int (leftLimit + 1)] (n - 1)))
         posInBlock leftLimit lowest tail fmt, None)
    else if N.eqb c CR then
      match rest with
      | [] => (Build_Scan ll finishedLines posInBlock leftLimit lowest [c] fmt, None)
      | next :: _ =>
          if str_eqb next [LF] then (st, None)
          else
            (Build_Scan [] finishedLines leftLimit leftLimit
               (if len finishedLines =? 0 then leftLimit else lowest) tail fmt, None)
      end
    else if N.eqb c BS then
      let '(r, n, posInBlock) := eraseBack (rev ll) (len s) posInBlock in
      let posInBlock := Z.max leftLimit (posInBlock - n) in
      (Build_Scan (rev r) finishedLines posInBlock leftLimit
         (if (len finishedLines =? 0) && (posInBlock <? lowest)
          then posInBlock else lowest) tail fmt, None)
    else if N.eqb c ESC then
      match rest with
      | next :: rest' =>
          let textAndNext := s ++ next in
          match parseFormat textAndNext fmt defaultFormat with
          | Some (format, matchLen) =>
              (Build_Scan (ll ++ [Fmt format]) finishedLines posInBlock leftLimit
                 lowest tail format,
               Some (slice next (Some (matchLen - 1)) None))
          | None =>
              let tail :=
                match rest' with
                | [] =>
                    if existsb (fun s2 => matched (reFormatPattern_match (textAndNext ++ s2)))
                               [lit "m"; lit "0m"; lit "[0m"]
                    then textAndNext else tail
                | _ => tail
                end in
              (Build_Scan (ll ++ [Str s]) finishedLines (posInBlock + len s)
                 leftLimit lowest tail fmt, None)
          end
      | [] =>
          (Build_Scan (ll ++ [Str s]) finishedLines (posInBlock + len s)
             leftLimit lowest s fmt, None)
      end
    else
      (Build_Scan (ll ++ [Str s]) finishedLines (posInBlock + len s)
         leftLimit lowest tail fmt, None)
  end.

(** [for i, s in enumerate(splitText)], from the token [s] on. *)
Fixpoint loopFrom (defaultFormat : QTextCharFormat) (s : str) (rest : list str)
    (st : Scan) {struct rest} : Scan :=
  let '(st', replaced) := step defaultFormat s rest st in
  match rest with
  | [] => st'
  | next :: rest' => loopFrom defaultFormat (default next replaced) rest' st'
  end.

Definition loop (defaultFormat : QTextCharFormat) (splitText : list str)
    (st : Scan) : Scan :=
  match splitText with
  | [] => st
  | s :: rest => loopFrom defaultFormat s rest st
  end.

(** The tokens of a fragment: the unfinished escape sequence of the last
    fragment goes in front of the text, and a carriage return that ended
    the last fragment comes back as a token unless a line feed follows. *)
Definition splitTextOf (unfinishedTail text : str) : list str :=
  let text2 :=
    match unfinishedTail with
    | c :: _ => if N.eqb c ESC then unfinishedTail ++ text else text
    | [] => text
    end in
  let splitText := reSplit text2 in
  if str_eqb unfinishedTail [CR]
     && negb match splitText with s :: _ => str_eqb s [LF] | [] => false end
  then [CR] :: splitText else splitText.

(** *** [_shortenLines] *)

Definition range (n : Z) : list Z := List.map Z.of_nat (seq 0 (Z.to_nat n)).

Definition _splitStringIntoChunks (s : str) (offset chunkSize : Z)
  : str * list str * str :=
  let n := len s in
  let numChunks := (n - offset) / chunkSize in
  let tillOffset := slice s None (Some offset) in
  let chunkList :=
    List.map (fun i => slice s (Some (offset + i * chunkSize))
                               (Some (offset + (i + 1) * chunkSize)))
             (range numChunks) in
  let remnant := slice s (Some (offset + numChunks * chunkSize)) None in
  (tillOffset, chunkList, remnant).

Definition shortLineLength : Z := 80.

(** [line[-1]] *)
Definition lastOf (line : entry) : result elem :=
  match line with
  | Line l => match last l with
              | Some e => ret e
              | None => raise IndexError
              end
  | Loose (Str s) => match last s with
                     | Some c => ret (Str [c])
                     | None => raise IndexError
                     end
  | Loose _ => raise TypeError
  end.

(** [line[:-1]]; iterating over a string gives its characters. *)
Definition butLast (line : entry) : result (list elem) :=
  match line with
  | Line l => ret (removelast l)
  | Loose (Str s) => ret (List.map (fun c => Str [c]) (removelast s))
  | Loose _ => raise TypeError
  end.

(** The comparison of [line[-1]] with an integer. *)
Definition asInt (e : elem) : result Z :=
  match e with
  | Int n => ret n
  | _ => raise TypeError
  end.

(** The loop over the elements of one line in shortening mode. *)
Fixpoint shortenElems (elems : list elem) (lineNew : list elem) (posInBlock : Z)
    (shortened : list entry) : list elem * Z * list entry :=
  match elems with
  | [] => (lineNew, posInBlock, shortened)
  | Str elem :: elems' =>
      let n := len elem in
      if posInBlock + n >? shortLineLength then
        let i := shortLineLength - posInBlock in
        let '(tillOffset, chunkList, remnant) :=
          _splitStringIntoChunks elem i shortLineLength in
        let lineNew :=
          lineNew ++ [Str tillOffset; Str [LF]; Int (posInBlock + len tillOffset + 1)] in
        let shortened :=
          (shortened ++ [Line lineNew])
            ++ List.map (fun chunk => Line [Str chunk; Str [LF]; Int (shortLineLength + 1)])
                        chunkList in
        shortenElems elems' [Str remnant] (len remnant) shortened
      else
        shortenElems elems' (lineNew ++ [Str elem]) (posInBlock + n) shortened
  | e :: elems' =>
      shortenElems elems' (lineNew ++ [e]) posInBlock shortened
  end.

(** The line breaks put into the row that is already in the document. *)
Fixpoint breakExisting (multiples : nat) (w : Widget) (k : workCursor)
  : Widget * workCursor :=
  match multiples with
  | O => (w, k)
  | S m =>
      let '(w, k) := moveRight shortLineLength w k in
      let '(w, k) := insertNewline w k in
      breakExisting m w k
  end.

(** What the loop of [_shortenLines] updates. *)
Record Shorten := {
  active : bool;
  column : Z;
  shortened : list entry;
  shWidget : Widget;
  shCursor : workCursor
}.

(** The hysteresis of the line shortening: the mode after a line
    that ends at column [lastPosInBlock]. *)
Definition hysteresis (active : bool) (lastPosInBlock numLines indLine : Z) : bool :=
  if lastPosInBlock >? 1024 then true
  else if (lastPosInBlock <=? shortLineLength + 1) && (indLine <? numLines - 1)
  then false else active.

(** The row that is already in the document is shortened as well when
    the cursor is beyond the short line length. *)
Definition shortenExisting (posInBlock : Z) (w : Widget) (k : workCursor)
  : Z * Widget * workCursor :=
  let charsRightOfCursor := posInBlock in
  if posInBlock >? shortLineLength then
    let '(w, k) := moveLeft posInBlock w k in
    let multiples := charsRightOfCursor / shortLineLength in
    let rem := charsRightOfCursor mod shortLineLength in
    let '(w, k) := breakExisting (Z.to_nat multiples) w k in
    let '(w, k) := moveRight rem w k in
    (rem, w, k)
  else (posInBlock, w, k).

Definition shortenLine (numLines : Z) (indLine : Z) (line : entry) (st : Shorten)
  : result Shorten :=
  let '(Build_Shorten active posInBlock shortened w k) := st in
  let* e := lastOf line in
  let* lastPosInBlock := asInt e in
  let active := hysteresis active lastPosInBlock numLines indLine in
  if active then
    let '(posInBlock, w, k) :=
      if indLine =? 0 then shortenExisting posInBlock w k else (0, w, k) in
    let* elems := butLast line in
    let '(lineNew, posInBlock, shortened) :=
      shortenElems elems [] posInBlock shortened in
    ret (Build_Shorten active posInBlock (shortened ++ [Line (lineNew ++ [Int posInBlock])]) w k)
  else
    ret (Build_Shorten active posInBlock (shortened ++ [line]) w k).

Fixpoint shortenFrom (numLines indLine : Z) (lines : list entry) (st : Shorten)
  : result Shorten :=
  match lines with
  | [] => ret st
  | line :: lines' =>
      let* st := shortenLine numLines indLine line st in
      shortenFrom numLines (indLine + 1) lines' st
  end.

(** [_shortenLines]: returns the flag, the shortened lines and the
    document with the cursor. *)
Definition _shortenLines (lineShorteningActive : bool) (finishedLines : list entry)
    (w : Widget) (k : workCursor) : result Shorten :=
  let posInBlock := positionInBlock (document w) (position (current w k)) in
  shortenFrom (len finishedLines) 0 finishedLines
    (Build_Shorten lineShorteningActive posInBlock [] w k).

(** *** [writeText] *)

(** The loop that writes the elements of one line. *)
Fixpoint insertElems (elems : list elem) (format : QTextCharFormat)
    (w : Widget) (k : workCursor) : QTextCharFormat * Widget * workCursor :=
  match elems with
  | [] => (format, w, k)
  | Str elem :: elems' =>
      let '(w, k) := insertText elem format w k in
      insertElems elems' format w k
  | Fmt f :: elems' => insertElems elems' f w k
  | Int _ :: elems' => insertElems elems' format w k
  end.

Fixpoint insertLines (lines : list entry) (format : QTextCharFormat)
    (w : Widget) (k : workCursor) : result (QTextCharFormat * Widget * workCursor) :=
  match lines with
  | [] => ret (format, w, k)
  | line :: lines' =>
      let* elems := butLast line in
      let '(format, w, k) := insertElems elems format w k in
      insertLines lines' format w k
  end.

(** The local variables before the loop. *)
Definition initialScan (self : ShellWriter) (col leftLimitFirstRow : Z)
    (defaultFormat : QTextCharFormat) : Scan :=
  let posInBlock :=
    match _unfinishedTail self with
    | c :: _ => if N.eqb c ESC then Z.max 0 (col - len (_unfinishedTail self)) else col
    | [] => col
    end in
  {| ll := []; finishedLines := []; posInBlock := posInBlock;
     leftLimit := leftLimitFirstRow; lowestPosInFirstBlock := posInBlock;
     unfinishedTailNew := [];
     currentFormat := default defaultFormat (_currentFormat self) |}.

(** The first half of [writeText]: the fragment turned into lines. *)
Definition scanText (self : ShellWriter) (col leftLimitFirstRow : Z) (text : str)
    (defaultFormat : QTextCharFormat) : Scan :=
  loop defaultFormat (splitTextOf (_unfinishedTail self) text)
       (initialScan self col leftLimitFirstRow defaultFormat).

(** The lines when the loop is over: the last line, which does not end
    with a line feed, is finished with its end column. *)
Definition allLines (st : Scan) : list entry :=
  finishedLines st ++ [Line (ll st ++ [Int (posInBlock st)])].

(** The second half of [writeText]: the characters of the last fragment
    that the lines replace are removed, and the lines are shortened and
    written. *)
Definition applyScan (self : ShellWriter) (lineShorteningActive : bool) (st : Scan)
    (col : Z) (w : Widget) (cursor : cursorRef) (defaultFormat : QTextCharFormat)
  : result (Z * ShellWriter * Widget) :=
  let finishedLines := allLines st in
  let numCharsToRemove := col - lowestPosInFirstBlock st in
  let k :=
    if keepPositionOnInsert (cursorOf w cursor)
    then Own (setKeepPositionOnInsert false (cursorOf w cursor))
    else Shared cursor in
  let '(w, k) := if numCharsToRemove >? 0 then removeLeft numCharsToRemove w k else (w, k) in
  let* sh := _shortenLines lineShorteningActive finishedLines w k in
  let format := default defaultFormat (_currentFormat self) in
  let* written := insertLines (shortened sh) format (shWidget sh) (shCursor sh) in
  let '(_, w, _) := written in
  ret (leftLimit st,
       {| _currentFormat := Some (currentFormat st);
          _unfinishedTail := unfinishedTailNew st;
          _lineShorteningActive := active sh |},
       w).

(** [writeText]: returns the new left limit, with the writer and the
    document as the call leaves them. *)
Definition writeText (self : ShellWriter) (w : Widget) (cursor : cursorRef)
    (leftLimitFirstRow : option Z) (text : str) (defaultFormat : QTextCharFormat)
  : result (Z * ShellWriter * Widget) :=
  let col := positionInBlock (document w) (position (cursorOf w cursor)) in
  let '(leftLimitFirstRow, lineShorteningActive) :=
    match leftLimitFirstRow with
    | None => (col, false)
    | Some l => (l, _lineShorteningActive self)
    end in
  if negb (col >=? leftLimitFirstRow) then raise AssertionError else
  applyScan self lineShorteningActive
    (scanText self col leftLimitFirstRow text defaultFormat)
    col w cursor defaultFormat.

End Writer.

(** ** BaseShell *)

(** Modelled from the spec: [bytes.decode("utf-8")] of the Python
    interpreter with its default, strict error handling, after the
    table of well-formed UTF-8 byte sequences of the Unicode standard.
    [None] stands for [UnicodeDecodeError]. *)
Module Utf8.

Definition between (lo b hi : N) : bool := ((lo <=? b) && (b <=? hi))%N.
Definition low6 (b : N) : N := N.land b 63.

Fixpoint decode (bs : list N) : option str :=
  match bs with
  | [] => Some []
  | b0 :: r0 =>
    if (b0 <? 128)%N then cons b0 <$> decode r0
    else if between 194 b0 223 then
      match r0 with
      | b1 :: r1 =>
          if between 128 b1 191
          then cons (N.land b0 31 * 64 + low6 b1)%N <$> decode r1
          else None
      | _ => None
      end
    else if between 224 b0 239 then
      match r0 with
      | b1 :: b2 :: r2 =>
          if between (if (b0 =? 224)%N then 160 else 128) b1
                     (if (b0 =? 237)%N then 159 else 191)
             && between 128 b2 191
          then cons ((N.land b0 15 * 64 + low6 b1) * 64 + low6 b2)%N <$> decode r2
          else None
      | _ => None
      end
    else if between 240 b0 244 then
      match r0 with
      | b1 :: b2 :: b3 :: r3 =>
          if between (if (b0 =? 240)%N then 144 else 128) b1
                     (if (b0 =? 244)%N then 143 else 191)
             && between 128 b2 191 && between 128 b3 191
          then cons (((N.land b0 7 * 64 + low6 b1) * 64 + low6 b2) * 64 + low6 b3)%N
                 <$> decode r3
          else None
      | _ => None
      end
    else None
  end.

End Utf8.

(** The argument [text] of [write]: a [str] or a [bytes] object. *)
Inductive payload :=
| Text (s : str)
| Bytes (b : list Byte.byte).

(** [text.decode("utf-8")] *)
Definition decode_utf8 (b : list Byte.byte) : result str :=
  match Utf8.decode (List.map Byte.to_N b) with
  | Some s => ret s
  | None => raise UnicodeDecodeError
  end.

(** Stream identifiers are hashable values; [None] is the default. *)
Abbreviation StreamId := (option N).

Record BaseShell := {
  widget : Widget;
  _shellWriters : gmap StreamId ShellWriter;
  _cursor1_lastStreamStart : option (StreamId * Z)
}.

(** The shell as [__init__] leaves it: an empty document, the three
    cursors at its start keeping their position on insert, and
    [resetShellWriters]. *)
Definition BaseShell_init : BaseShell :=
  let c := {| position := O; keepPositionOnInsert := true |} in
  {| widget := {| document := []; _cursor1 := c; _cursor2 := c;
                  _lastCommandCursor := c |};
     _shellWriters := ∅;
     _cursor1_lastStreamStart := None |}.

Definition setKeep (b1 b2 : bool) (w : Widget) : Widget :=
  {| document := document w;
     _cursor1 := setKeepPositionOnInsert b1 (_cursor1 w);
     _cursor2 := setKeepPositionOnInsert b2 (_cursor2 w);
     _lastCommandCursor := _lastCommandCursor w |}.

(** [self._cursor1.setPosition(self._cursor2.position(), A_KEEP);
    self._cursor1.removeSelectedText()] *)
Definition removePrompt (w : Widget) : Widget :=
  fst (removeBetween (position (_cursor1 w)) (position (_cursor2 w)) w (Shared Cursor1)).

(** The format prepared from the [color] argument. *)
Definition formatOfColor (color : option string) : QTextCharFormat :=
  match color with
  | Some c => if String.eqb c "" then emptyFormat
              else setForeground c emptyFormat
  | None => emptyFormat
  end.

(** The column down to which the stream may remove characters from the
    current row: known when the last text before the prompt came from
    the same stream. *)
Definition leftLimitFor (lastStreamStart : option (StreamId * Z))
    (streamIdentifier : StreamId) : option Z :=
  match lastStreamStart with
  | Some (sid, l) => if bool_decide (sid = streamIdentifier) then Some l else None
  | None => None
  end.

(** [not text] *)
Definition isEmpty (text : payload) : bool :=
  match text with
  | Text [] | Bytes [] => true
  | _ => false
  end.

Section Shell.
Context {digits : DigitTable}.

(** [write], up to the call of [ensureCursorVisible] and the scroll bar,
    which do not touch the document. *)
Definition write (self : BaseShell) (text : payload) (prompt : Z)
    (color : option string) (streamIdentifier : StreamId) : result BaseShell :=
  if isEmpty text then ret self else
  let* text := match text with Text s => ret s | Bytes b => decode_utf8 b end in
  let format := formatOfColor color in
  let w := widget self in
  let* self :=
    if prompt =? 0 then
      let w := setKeep false false w in
      let leftLimit := leftLimitFor (_cursor1_lastStreamStart self) streamIdentifier in
      let shellWriter := default ShellWriter_init (_shellWriters self !! streamIdentifier) in
      let* r := writeText shellWriter w Cursor1 leftLimit text format in
      let '(newLeftLimit, shellWriter, w) := r in
      ret {| widget := w;
             _shellWriters := <[streamIdentifier := shellWriter]> (_shellWriters self);
             _cursor1_lastStreamStart := Some (streamIdentifier, newLeftLimit) |}
    else if prompt =? 1 then
      let w := {| document := document w; _cursor1 := _cursor1 w; _cursor2 := _cursor2 w;
                  _lastCommandCursor :=
                    setPosition (position (_cursor2 w)) (_lastCommandCursor w) |} in
      let w := setKeep false false w in
      let* r := writeText ShellWriter_init w Cursor2 None text format in
      let '(_, _, w) := r in
      let w := setCursor Cursor1 (setPosition (position (_cursor2 w)) (_cursor1 w)) w in
      ret {| widget := w; _shellWriters := _shellWriters self;
             _cursor1_lastStreamStart := None |}
    else if (prompt =? 2) && str_eqb text [BS] then
      let w := removePrompt w in
      let w := setCursor Cursor2 (setPosition (position (_cursor1 w)) (_cursor2 w)) w in
      ret {| widget := w; _shellWriters := _shellWriters self;
             _cursor1_lastStreamStart := _cursor1_lastStreamStart self |}
    else if prompt =? 2 then
      let w := removePrompt w in
      let w := setKeep true false w in
      let* r := writeText ShellWriter_init w Cursor1 None text format in
      let '(_, _, w) := r in
      ret {| widget := w; _shellWriters := _shellWriters self;
             _cursor1_lastStreamStart := _cursor1_lastStreamStart self |}
    else ret self in
  ret {| widget := setKeep true true (widget self);
         _shellWriters := _shellWriters self;
         _cursor1_lastStreamStart := _cursor1_lastStreamStart self |}.

(** A sequence of [write] calls. *)
Fixpoint writes (self : BaseShell)
    (calls : list (payload * Z * option string * StreamId)) : result BaseShell :=
  match calls with
  | [] => ret self
  | (text, prompt, color, sid) :: calls' =>
      let* self := write self text prompt color sid in
      writes self calls'
  end.

End Shell.

(** What the document shows: its characters, and its rows. *)
Definition contents (d : QTextDocument) : str := List.map fst d.

Fixpoint rowsFrom (row : str) (s : str) : list str :=
  match s with
  | [] => [rev row]
  | c :: s' => if N.eqb c LF then rev row :: rowsFrom [] s' else rowsFrom (c :: row) s'
  end.
Definition rows (d : QTextDocument) : list str := rowsFrom [] (contents d).

Definition shown (r : result BaseShell) : option (list str) :=
  match r with
  | inr sh => Some (rows (document (widget sh)))
  | inl _ => None
  end.


(** ** Notions used by the statements *)



(** The lengths of the rows that a run of calls leaves in the document. *)
Definition rowLengths (r : result BaseShell) : option (list nat) :=
  match r with
  | inr sh => Some (List.map (@length char) (rows (document (widget sh))))
  | inl _ => None
  end.

(** The document seen from the cursor [k] that writes: [pre] is the
    text before it, [post] the text after it, and the cursor moves
    along with what it inserts. *)
Definition atCursor (w : Widget) (k : workCursor) (pre post : QTextDocument) : Prop :=
  document w = pre ++ post
  /\ position (current w k) = length pre
  /\ keepPositionOnInsert (current w k) = false.

(** A cursor of the shell other than the writing one, [n] characters
    behind it. *)
Definition behindCursor (w : Widget) (k : workCursor) (r : cursorRef) (n : nat) : Prop :=
  k <> Shared r
  /\ position (cursorOf w r) = (position (current w k) + n)%nat
  /\ keepPositionOnInsert (cursorOf w r) = false.

(** What the edits of [writeText] keep: the text after the writing
    cursor, the identity of that cursor, and the cursors of the shell
    that stand at the same place. *)
Definition keepsAnchor (post : QTextDocument) (w : Widget) (k : workCursor)
    (w' : Widget) (k' : workCursor) : Prop :=
  (exists pre', atCursor w' k' pre' post)
  /\ (forall r, k = Shared r -> k' = Shared r)
  /\ (forall c, behindCursor w k c 0 -> behindCursor w' k' c 0).

(** The characters that the elements of a line put into the document
    when they are written from the format [format] on, and the format
    after them. *)
Fixpoint render (elems : list elem) (format : QTextCharFormat) : list cell :=
  match elems with
  | [] => []
  | Str s :: elems' => styled s format ++ render elems' format
  | Fmt f :: elems' => render elems' f
  | Int _ :: elems' => render elems' format
  end.

Fixpoint formatAfter (elems : list elem) (format : QTextCharFormat) : QTextCharFormat :=
  match elems with
  | [] => format
  | Fmt f :: elems' => formatAfter elems' f
  | _ :: elems' => formatAfter elems' format
  end.

(** The elements of an entry that are written: all but its last. *)
Definition elemsOf (line : entry) : list elem :=
  match butLast line with
  | inr elems => elems
  | inl _ => []
  end.



(** The number of columns that the strings of a line take. *)
Fixpoint width (elems : list elem) : Z :=
  match elems with
  | [] => 0
  | Str s :: elems' => len s + width elems'
  | _ :: elems' => width elems'
  end.





(** A token of the tokenizer: one delimiter character, a run of one of
    the characters that come in runs, or text without delimiters. *)
Definition isToken (t : str) : bool :=
  match t with
  | [] => false
  | c :: t' =>
      if isSingle c then match t' with [] => true | _ => false end
      else if isRun c then forallb (N.eqb c) t'
      else forallb isPlain t'
  end.

(** No token of the list could take the first character of the next
    one. *)
Fixpoint maximalTokens (ts : list str) : bool :=
  match ts with
  | (c :: _) :: (((d :: _) :: _) as ts') => negb (joins c d) && maximalTokens ts'
  | _ :: ts' => maximalTokens ts'
  | [] => true
  end.

(** A property of a format that a function either sets to a fixed
    value or leaves as it is. *)
Definition setsOrKeeps {A} (proj : QTextCharFormat -> A)
    (F : QTextCharFormat -> QTextCharFormat) : Prop :=
  (exists c, forall f, proj (F f) = c) \/ (forall f, proj (F f) = proj f).

(** A line as the loop of [writeText] builds it, that ends at column
    [bound] at most. *)
Definition endsWithin (bound : Z) (line : entry) : Prop :=
  exists l z, line = Line l /\ last l = Some (Int z) /\ z <= bound.

(** Ordinary characters: line breaks, and the characters that are no
    delimiter of the tokenizer. *)
Definition ordinary (c : char) : bool := isPlain c || in_str c _linebreaks.
(** Every line break is written as a line feed. *)
Definition shownAs (c : char) : char := if in_str c _linebreaks then LF else c.

(** The elements that the lines of the loop hold so far. *)
Definition written (st : Scan) : list elem :=
  flat_map elemsOf (finishedLines st) ++ ll st.

(** A token of ordinary characters: one line break, or text. *)
Definition ordinaryToken (t : str) : bool :=
  match t with
  | [] => false
  | c :: t' => if in_str c _linebreaks then match t' with [] => true | _ => false end
               else forallb isPlain t
  end.




(** Every cursor of the shell behind the writing cursor keeps its
    distance to it. *)
Definition followsAll (w : Widget) (k : workCursor) (w' : Widget) (k' : workCursor) : Prop :=
  forall r n, behindCursor w k r n -> behindCursor w' k' r n.

(** * Properties *)

(** ** Edits of the document at the cursor *)

Lemma current_edit d follow w k :
  current (edit d follow w k).1 (edit d follow w k).2 = follow (current w k).
Proof. destruct k as [[]|c]; reflexivity. Qed.

Lemma document_edit d follow w k : document (edit d follow w k).1 = d.
Proof. reflexivity. Qed.

Lemma afterInsert_here (n : nat) (c : QTextCursor) :
  keepPositionOnInsert c = false ->
  afterInsert (position c) n c = setPosition (position c + n) c.
Proof.
  intros Hk. unfold afterInsert.
  rewrite Nat.ltb_irrefl, Nat.eqb_refl, Hk. reflexivity.
Qed.

Lemma insertCells_atCursor cs w k pre post :
  atCursor w k pre post ->
  atCursor (insertCells cs w k).1 (insertCells cs w k).2 (pre ++ cs) post.
Proof.
  intros (Hd & Hp & Hk). unfold insertCells, atCursor.
  rewrite current_edit, document_edit, afterInsert_here by assumption.
  rewrite Hp, Hd. unfold insertAt.
  rewrite take_app_length, drop_app_length, length_app, <- app_assoc.
  cbn. auto.
Qed.

Lemma afterRemove_left (n : nat) (c : QTextCursor) :
  afterRemove (position c - n) (position c) c = setPosition (position c - n) c.
Proof.
  unfold afterRemove.
  destruct (Nat.leb_spec (position c) (position c - n)) as [H|H].
  - replace (position c - n)%nat with (position c) by lia. destruct c; reflexivity.
  - rewrite Nat.leb_refl. reflexivity.
Qed.

Lemma removeLeft_atCursor (n : Z) w k pre post :
  atCursor w k pre post ->
  atCursor (removeLeft n w k).1 (removeLeft n w k).2
           (take (length pre - Z.to_nat n) pre) post.
Proof.
  intros (Hd & Hp & Hk). unfold removeLeft, removeBetween, atCursor.
  rewrite current_edit, document_edit.
  rewrite Nat.min_l, Nat.max_r by lia.
  rewrite afterRemove_left, Hp, Hd. unfold removeRange.
  rewrite take_app_le, drop_app_length by lia.
  cbn. rewrite length_take. split; [reflexivity|]. split; [lia|assumption].
Qed.

Lemma column_after_app (c : nat) (a b : QTextDocument) :
  column_after c (a ++ b) = column_after (column_after c a) b.
Proof. revert c. induction a as [|[x f] a IH]; intros c; cbn; [reflexivity|apply IH]. Qed.

Lemma positionInBlock_atCursor w k pre post :
  atCursor w k pre post ->
  positionInBlock (document w) (position (current w k)) = Z.of_nat (column_after 0 pre).
Proof.
  intros (Hd & Hp & _). unfold positionInBlock. rewrite Hd, Hp, take_app_length. reflexivity.
Qed.

Lemma column_after_le (c : nat) (d : QTextDocument) :
  (column_after c d <= c + length d)%nat.
Proof.
  revert c. induction d as [|[x f] d IH]; intros c; cbn; [lia|].
  specialize (IH (if (x =? LF)%N then O else S c)). destruct (x =? LF)%N; lia.
Qed.

(** The row of the cursor: it can be cut off the text before the cursor. *)
Lemma column_after_split (d : QTextDocument) :
  exists d1 d2, d = d1 ++ d2 /\ length d2 = column_after 0 d
    /\ column_after 0 d1 = O /\ Forall (fun x => x.1 <> LF) d2.
Proof.
  induction d as [|[x f] d IH] using rev_ind.
  - exists [], []. repeat split; constructor.
  - destruct IH as (d1 & d2 & -> & Hlen & H0 & Hall).
    rewrite column_after_app. cbn.
    destruct (N.eqb_spec x LF) as [->|Hx].
    + exists ((d1 ++ d2) ++ [(LF, f)]), []. rewrite app_nil_r.
      repeat split; [|constructor]. rewrite column_after_app. reflexivity.
    + exists d1, (d2 ++ [(x, f)]). rewrite app_assoc. repeat split.
      * rewrite length_app. cbn. rewrite column_after_app in *. lia.
      * assumption.
      * apply Forall_app. split; [assumption|]. constructor; [exact Hx|constructor].
Qed.

Lemma column_after_noLF (c : nat) (d : QTextDocument) :
  Forall (fun x => x.1 <> LF) d -> column_after c d = (c + length d)%nat.
Proof.
  intros H. revert c. induction H as [|[x f] d Hx _ IH]; intros c; cbn; [lia|].
  cbn in Hx. destruct (N.eqb_spec x LF); [contradiction|]. rewrite IH. lia.
Qed.


(** ** Cursors that follow the edits *)

Lemma cursorOf_edit d follow w k r :
  cursorOf (edit d follow w k).1 r = follow (cursorOf w r).
Proof. destruct r; reflexivity. Qed.

Lemma current_moveTo p w k :
  current (moveTo p w k).1 (moveTo p w k).2 = setPosition p (current w k).
Proof. destruct k as [[]|c]; reflexivity. Qed.

Lemma document_moveTo p w k : document (moveTo p w k).1 = document w.
Proof. destruct k as [[]|c]; reflexivity. Qed.

Lemma moveLeft_atCursor (w : Widget) (k : workCursor) (a b post : QTextDocument) :
  atCursor w k (a ++ b) post ->
  atCursor (moveLeft (len b) w k).1 (moveLeft (len b) w k).2 a (b ++ post).
Proof.
  intros (Hd & Hp & Hk). unfold moveLeft, atCursor.
  rewrite current_moveTo, document_moveTo, Hd, Hp, length_app, <- app_assoc.
  cbn. unfold len. split; [reflexivity|]. split; [lia|assumption].
Qed.

Lemma moveRight_atCursor (w : Widget) (k : workCursor) (a b post : QTextDocument) :
  atCursor w k a (b ++ post) ->
  atCursor (moveRight (len b) w k).1 (moveRight (len b) w k).2 (a ++ b) post.
Proof.
  intros (Hd & Hp & Hk). unfold moveRight, atCursor.
  rewrite current_moveTo, document_moveTo, Hd, Hp, !length_app, <- app_assoc.
  cbn. unfold len. split; [reflexivity|]. split; [lia|assumption].
Qed.

Lemma cursorOf_moveTo p w k r :
  k <> Shared r -> cursorOf (moveTo p w k).1 r = cursorOf w r.
Proof. destruct k as [[]|c], r; try reflexivity; congruence. Qed.

Lemma moveTo_ref p w k r : (moveTo p w k).2 = Shared r <-> k = Shared r.
Proof. destruct k as [[]|c]; cbn; split; congruence. Qed.

Lemma edit_ref d follow w k r : (edit d follow w k).2 = Shared r <-> k = Shared r.
Proof. destruct k as [[]|c]; cbn; split; congruence. Qed.

Lemma insertCells_behind cs w k r n pre post :
  atCursor w k pre post -> behindCursor w k r n ->
  behindCursor (insertCells cs w k).1 (insertCells cs w k).2 r n.
Proof.
  intros (Hd & Hp & Hk) (Hne & Hr & Hrk). unfold insertCells, behindCursor.
  rewrite current_edit, cursorOf_edit, edit_ref.
  rewrite afterInsert_here by assumption.
  split; [assumption|]. unfold afterInsert. rewrite Hr, Hrk.
  destruct (Nat.ltb_spec (position (current w k)) (position (current w k) + n)%nat).
  - cbn. split; [lia|assumption].
  - replace n with O by lia. rewrite Nat.add_0_r, Nat.eqb_refl. cbn. split; [lia|assumption].
Qed.

Lemma removeLeft_behind m w k r n :
  behindCursor w k r n ->
  behindCursor (removeLeft m w k).1 (removeLeft m w k).2 r n.
Proof.
  intros (Hne & Hr & Hrk). unfold removeLeft, removeBetween, behindCursor.
  rewrite current_edit, cursorOf_edit, edit_ref.
  rewrite Nat.min_l, Nat.max_r by lia.
  rewrite afterRemove_left.
  split; [assumption|]. unfold afterRemove. rewrite Hr.
  set (p := position (current w k)).
  destruct (Nat.leb_spec (p + n) (p - Z.to_nat m)).
  - cbn. split; [lia|assumption].
  - destruct (Nat.leb_spec (p + n) p); cbn; (split; [lia|assumption]).
Qed.

Lemma moveTo_behind p w k r n n' :
  behindCursor w k r n -> (position (current w k) + n = p + n')%nat ->
  behindCursor (moveTo p w k).1 (moveTo p w k).2 r n'.
Proof.
  intros (Hne & Hr & Hrk) Hp. unfold behindCursor.
  rewrite current_moveTo, moveTo_ref, cursorOf_moveTo by assumption.
  cbn. split; [assumption|]. split; [lia|assumption].
Qed.

Lemma column_after_snoc_LF (c : nat) (d : QTextDocument) (f : QTextCharFormat) :
  column_after c (d ++ [(LF, f)]) = O.
Proof. rewrite column_after_app. reflexivity. Qed.

(** The line breaks put into the row before the cursor: [m] times, 80
    characters further on.  The cursor ends in front of what is left of
    the row, [b'], and at the start of a row if a break was made. *)
Lemma breakExisting_spec (m : nat) :
  forall (w : Widget) (k : workCursor) (a b post : QTextDocument),
    atCursor w k a (b ++ post) ->
    (80 * m <= length b)%nat ->
    exists a',
      atCursor (breakExisting m w k).1 (breakExisting m w k).2 a' (drop (80 * m) b ++ post)
      /\ (m <> O -> column_after 0 a' = O)
      /\ (m = O -> a' = a)
      /\ (forall r, behindCursor w k r (length b) ->
            behindCursor (breakExisting m w k).1 (breakExisting m w k).2 r
              (length b - 80 * m)).
Proof.
  induction m as [|m IH]; intros w k a b post Hat Hlen.
  - exists a. cbn [breakExisting fst snd]. rewrite Nat.mul_0_r, drop_0, Nat.sub_0_r.
    split; [exact Hat|]. split; [intros H; destruct H; reflexivity|].
    split; [reflexivity|]. intros r Hr. exact Hr.
  - cbn [breakExisting].
    pose proof (take_drop 80 b) as Hb.
    assert (length (take 80 b) = 80%nat) as Hlen1 by (rewrite length_take; lia).
    set (b1 := take 80 b) in *. set (b2 := drop 80 b) in *.
    assert (Hat1 : atCursor w k a (b1 ++ b2 ++ post)) by (rewrite app_assoc, Hb; exact Hat).
    apply moveRight_atCursor in Hat1.
    assert (len b1 = shortLineLength) as Hl by (unfold len; rewrite Hlen1; reflexivity).
    rewrite Hl in Hat1.
    assert (Hbeh1 : forall r, behindCursor w k r (length b) ->
              behindCursor (moveRight shortLineLength w k).1
                (moveRight shortLineLength w k).2 r (length b2)).
    { intros r Hr. unfold moveRight.
      destruct Hat as (Hd & Hp & Hk).
      eapply moveTo_behind; [exact Hr|].
      rewrite Hd, Hp, !length_app. unfold b2. rewrite length_drop.
      unfold shortLineLength. lia. }
    destruct (moveRight shortLineLength w k) as [w1 k1]. cbn [fst snd] in *.
    unfold insertNewline.
    set (cs := [(LF, charFormat (document w1) (position (current w1 k1)))]).
    pose proof (insertCells_atCursor cs w1 k1 _ _ Hat1) as Hat2.
    assert (Hbeh2 : forall r, behindCursor w1 k1 r (length b2) ->
              behindCursor (insertCells cs w1 k1).1 (insertCells cs w1 k1).2 r (length b2)).
    { intros r Hr. eapply insertCells_behind; eauto. }
    destruct (insertCells cs w1 k1) as [w2 k2]. cbn [fst snd] in *.
    destruct (IH w2 k2 ((a ++ b1) ++ cs) b2 post Hat2) as (a' & Hat3 & Hcol & Ha' & Hbeh3).
    { unfold b2. rewrite length_drop. lia. }
    exists a'. split; [|split; [|split]].
    + replace (drop (80 * S m) b) with (drop (80 * m) b2); [exact Hat3|].
      unfold b2. rewrite drop_drop. f_equal. lia.
    + intros _. destruct m as [|m'].
      * rewrite Ha' by reflexivity. apply column_after_snoc_LF.
      * apply Hcol. discriminate.
    + discriminate.
    + intros r Hr. specialize (Hbeh3 r (Hbeh2 r (Hbeh1 r Hr))).
      replace (length b - 80 * S m)%nat with (length b2 - 80 * m)%nat; [exact Hbeh3|].
      unfold b2. rewrite length_drop. lia.
Qed.

Lemma Forall_drop_noLF (n : nat) (d : QTextDocument) :
  Forall (fun x => x.1 <> LF) d -> Forall (fun x => x.1 <> LF) (drop n d).
Proof. apply Forall_drop. Qed.

(** The row before the cursor shortened: the text after the cursor is
    the same, the cursor is at the column that is returned, and a cursor
    of the shell that stood at the same place still does. *)
Lemma shortenExisting_spec (w : Widget) (k : workCursor) (pre post : QTextDocument) :
  atCursor w k pre post ->
  exists pre',
    let r := shortenExisting (Z.of_nat (column_after 0 pre)) w k in
    atCursor r.1.2 r.2 pre' post
    /\ r.1.1 = Z.of_nat (column_after 0 pre')
    /\ 0 <= r.1.1 <= shortLineLength
    /\ (Z.of_nat (column_after 0 pre) <= shortLineLength -> r = (Z.of_nat (column_after 0 pre), w, k))
    /\ (forall c, behindCursor w k c 0 -> behindCursor r.1.2 r.2 c 0).
Proof.
  intros Hat. unfold shortenExisting.
  set (col := Z.of_nat (column_after 0 pre)).
  destruct (Z.gtb_spec col shortLineLength) as [Hgt|Hle].
  2:{ exists pre. cbn [fst snd]. split; [exact Hat|]. split; [reflexivity|].
      split; [unfold col, shortLineLength in *; lia|]. split; [reflexivity|].
      intros c Hc. exact Hc. }
  destruct (column_after_split pre) as (d1 & d2 & Hpre & Hlen & H0 & Hall).
  assert (len d2 = col) as Hl by (unfold len, col; lia).
  rewrite Hpre in Hat.
  pose proof (moveLeft_atCursor w k d1 d2 post Hat) as Hat1.
  assert (Hbeh1 : forall c, behindCursor w k c 0 ->
            behindCursor (moveLeft col w k).1 (moveLeft col w k).2 c (length d2)).
  { intros c Hc. unfold moveLeft. destruct Hat as (Hd & Hp & Hk).
    eapply moveTo_behind; [exact Hc|].
    rewrite Hp, length_app. unfold col. lia. }
  rewrite Hl in Hat1.
  destruct (moveLeft col w k) as [w1 k1]. cbn [fst snd] in *.
  set (m := Z.to_nat (col `div` shortLineLength)).
  assert (80 * m <= length d2)%nat as Hm.
  { unfold m, shortLineLength in *.
    pose proof (Z.mul_div_le col 80 ltac:(lia)). lia. }
  destruct (breakExisting_spec m w1 k1 d1 d2 post Hat1 Hm) as (a' & Hat2 & Hcol & _ & Hbeh2).
  assert (len (drop (80 * m) d2) = col `mod` shortLineLength) as Hrem.
  { unfold len. rewrite length_drop. unfold m, shortLineLength in *.
    pose proof (Z.div_mod col 80 ltac:(lia)).
    pose proof (Z.div_pos col 80 ltac:(lia) ltac:(lia)). lia. }
  pose proof (moveRight_atCursor _ _ _ _ _ Hat2) as Hat3. rewrite Hrem in Hat3.
  assert (Hbeh3 : forall c,
            behindCursor (breakExisting m w1 k1).1 (breakExisting m w1 k1).2 c (length d2 - 80 * m) ->
            behindCursor
              (moveRight (col `mod` shortLineLength) (breakExisting m w1 k1).1 (breakExisting m w1 k1).2).1
              (moveRight (col `mod` shortLineLength) (breakExisting m w1 k1).1 (breakExisting m w1 k1).2).2
              c 0).
  { intros c Hc. unfold moveRight. destruct Hat2 as (Hd & Hp & Hk).
    eapply moveTo_behind; [exact Hc|].
    rewrite Hd, Hp, !length_app, length_drop.
    unfold len in Hrem. rewrite length_drop in Hrem. lia. }
  destruct (breakExisting m w1 k1) as [w2 k2]. cbn [fst snd] in *.
  destruct (moveRight (col `mod` shortLineLength) w2 k2) as [w3 k3]. cbn [fst snd] in *.
  exists (a' ++ drop (80 * m) d2). cbn [fst snd].
  assert (m <> O) as Hm0.
  { unfold m, shortLineLength in *.
    pose proof (Z.div_le_mono 80 col 80 ltac:(lia) ltac:(lia)) as Hd.
    rewrite Z.div_same in Hd by lia. lia. }
  split; [exact Hat3|]. split; [|split; [|split]].
  - rewrite column_after_app, (Hcol Hm0), column_after_noLF by (apply Forall_drop; exact Hall).
    unfold len in Hrem. lia.
  - pose proof (Z.mod_pos_bound col shortLineLength ltac:(reflexivity)). lia.
  - unfold shortLineLength in *. lia.
  - intros c Hc. apply Hbeh3, Hbeh2, Hbeh1, Hc.
Qed.

Lemma keepsAnchor_refl post w k pre :
  atCursor w k pre post -> keepsAnchor post w k w k.
Proof. intros H. split; [eauto|]. split; auto. Qed.

Lemma keepsAnchor_trans post w k w1 k1 w2 k2 :
  keepsAnchor post w k w1 k1 -> keepsAnchor post w1 k1 w2 k2 ->
  keepsAnchor post w k w2 k2.
Proof.
  intros (_ & Hr1 & Hb1) (Hat & Hr2 & Hb2). split; [exact Hat|]. split; auto.
Qed.

Lemma insertCells_keeps cs w k pre post :
  atCursor w k pre post ->
  keepsAnchor post w k (insertCells cs w k).1 (insertCells cs w k).2.
Proof.
  intros Hat. split; [|split].
  - eexists. eapply insertCells_atCursor. exact Hat.
  - intros r ->. reflexivity.
  - intros c Hc. eapply insertCells_behind; eauto.
Qed.

Lemma removeLeft_keeps n w k pre post :
  atCursor w k pre post ->
  keepsAnchor post w k (removeLeft n w k).1 (removeLeft n w k).2.
Proof.
  intros Hat. split; [|split].
  - eexists. eapply removeLeft_atCursor. exact Hat.
  - intros r ->. reflexivity.
  - intros c Hc. eapply removeLeft_behind; eauto.
Qed.

Lemma moveTo_shared p w k r : k = Shared r -> (moveTo p w k).2 = Shared r.
Proof. intros ->. reflexivity. Qed.

Lemma breakExisting_shared m : forall w k r,
  k = Shared r -> (breakExisting m w k).2 = Shared r.
Proof.
  induction m as [|m IH]; intros w k r ->; [reflexivity|].
  cbn [breakExisting]. unfold moveRight, insertNewline, insertCells. cbn.
  apply IH. reflexivity.
Qed.

Lemma shortenExisting_keeps w k pre post :
  atCursor w k pre post ->
  let r := shortenExisting (Z.of_nat (column_after 0 pre)) w k in
  keepsAnchor post w k r.1.2 r.2.
Proof.
  intros Hat. destruct (shortenExisting_spec w k pre post Hat) as (pre' & H1 & _ & _ & _ & H5).
  cbn zeta. split; [eauto|]. split; [|exact H5].
  intros r ->. unfold shortenExisting.
  destruct (_ >? _); [|reflexivity].
  cbn [moveLeft moveTo].
  pose proof (breakExisting_shared
                (Z.to_nat (Z.of_nat (column_after 0 pre) `div` shortLineLength))
                (setCursor r (setPosition (position (current w (Shared r))
                    - Z.to_nat (Z.of_nat (column_after 0 pre))) (cursorOf w r)) w)
                (Shared r) r eq_refl) as Hb.
  destruct (breakExisting _ _ _) as [w2 k2]. cbn [snd] in Hb. subst k2.
  reflexivity.
Qed.

Lemma insertElems_keeps (elems : list elem) :
  forall format w k pre post,
    atCursor w k pre post ->
    keepsAnchor post w k (insertElems elems format w k).1.2 (insertElems elems format w k).2.
Proof.
  induction elems as [|[s|f|z] elems IH]; intros format w k pre post Hat; cbn [insertElems].
  - eapply keepsAnchor_refl; eauto.
  - unfold insertText.
    pose proof (insertCells_keeps (styled s format) w k pre post Hat) as H1.
    pose proof (insertCells_atCursor (styled s format) w k pre post Hat) as Hat1.
    destruct (insertCells (styled s format) w k) as [w1 k1]. cbn [fst snd] in *.
    eapply keepsAnchor_trans; [exact H1|]. eapply IH. exact Hat1.
  - eapply IH; eauto.
  - eapply IH; eauto.
Qed.

Lemma insertLines_keeps (lines : list entry) :
  forall format w k pre post format' w' k',
    atCursor w k pre post ->
    insertLines lines format w k = inr (format', w', k') ->
    keepsAnchor post w k w' k'.
Proof.
  induction lines as [|line lines IH]; intros format w k pre post format' w' k' Hat Hins;
    cbn [insertLines] in Hins.
  - injection Hins as <- <- <-. eapply keepsAnchor_refl; eauto.
  - destruct (butLast line) as [e|elems]; [discriminate|]. cbn [bind] in Hins.
    pose proof (insertElems_keeps elems format w k pre post Hat) as H1.
    destruct (insertElems elems format w k) as [[f1 w1] k1]. cbn [fst snd] in *.
    destruct H1 as ((pre1 & Hat1) & Hr1 & Hb1).
    specialize (IH _ _ _ _ _ _ _ _ Hat1 Hins).
    eapply keepsAnchor_trans; [|exact IH]. split; [eauto|]. split; assumption.
Qed.

Lemma shortenLine_keeps numLines indLine line st st' pre post :
  shortenLine numLines indLine line st = inr st' ->
  atCursor (shWidget st) (shCursor st) pre post ->
  (indLine = 0 -> column st = Z.of_nat (column_after 0 pre)) ->
  keepsAnchor post (shWidget st) (shCursor st) (shWidget st') (shCursor st').
Proof.
  intros Hsh Hat Hcol. destruct st as [a c sh w k]. cbn [shWidget shCursor column] in *.
  unfold shortenLine in Hsh.
  destruct (lastOf line) as [?|e]; [discriminate|]. cbn [bind] in Hsh.
  destruct (asInt e) as [?|z]; [discriminate|]. cbn [bind] in Hsh.
  destruct (hysteresis a z numLines indLine).
  - destruct (Z.eqb_spec indLine 0) as [Hi|Hi].
    + rewrite (Hcol Hi) in Hsh.
      pose proof (shortenExisting_keeps w k pre post Hat) as Hk. cbn zeta in Hk.
      destruct (shortenExisting _ w k) as [[p1 w1] k1]. cbn [fst snd] in Hk.
      destruct (butLast line) as [?|elems]; [discriminate|]. cbn [bind] in Hsh.
      destruct (shortenElems elems [] p1 sh) as [[ln p2] sh2].
      injection Hsh as <-. exact Hk.
    + destruct (butLast line) as [?|elems]; [discriminate|]. cbn [bind] in Hsh.
      destruct (shortenElems elems [] 0 sh) as [[ln p2] sh2].
      injection Hsh as <-. eapply keepsAnchor_refl; eauto.
  - injection Hsh as <-. eapply keepsAnchor_refl; eauto.
Qed.

Lemma shortenFrom_keeps numLines (lines : list entry) :
  forall indLine st st' pre post,
    0 <= indLine ->
    shortenFrom numLines indLine lines st = inr st' ->
    atCursor (shWidget st) (shCursor st) pre post ->
    (indLine = 0 -> column st = Z.of_nat (column_after 0 pre)) ->
    keepsAnchor post (shWidget st) (shCursor st) (shWidget st') (shCursor st').
Proof.
  induction lines as [|line lines IH]; intros indLine st st' pre post Hi Hsh Hat Hcol;
    cbn [shortenFrom] in Hsh.
  - injection Hsh as <-. eapply keepsAnchor_refl; eauto.
  - destruct (shortenLine numLines indLine line st) as [?|st1] eqn:H1; [discriminate|].
    cbn [bind] in Hsh.
    pose proof (shortenLine_keeps _ _ _ _ _ _ _ H1 Hat Hcol) as Hk1.
    destruct Hk1 as ((pre1 & Hat1) & Hr1 & Hb1).
    eapply keepsAnchor_trans; [split; [eauto|split; eassumption]|].
    eapply (IH (indLine + 1) st1 st' pre1 post); [lia|exact Hsh|exact Hat1|lia].
Qed.

Lemma shortenLines_keeps a lines w k sh pre post :
  _shortenLines a lines w k = inr sh ->
  atCursor w k pre post ->
  keepsAnchor post w k (shWidget sh) (shCursor sh).
Proof.
  intros Hsh Hat. unfold _shortenLines in Hsh.
  eapply (shortenFrom_keeps _ _ 0 _ _ pre post) in Hsh; [exact Hsh|lia|exact Hat|].
  intros _. cbn [column]. eapply positionInBlock_atCursor. exact Hat.
Qed.

Section AnchorFacts.
Context {digits : DigitTable}.



End AnchorFacts.

(** ** What the lines put into the document *)

Lemma setPosition_same (c : QTextCursor) : setPosition (position c) c = c.
Proof. destruct c; reflexivity. Qed.

Lemma afterInsert_0 (p : nat) (c : QTextCursor) : afterInsert p 0 c = c.
Proof.
  unfold afterInsert. rewrite Nat.add_0_r, setPosition_same.
  repeat case_match; reflexivity.
Qed.

Lemma insertCells_nil (w : Widget) (k : workCursor) : insertCells [] w k = (w, k).
Proof.
  unfold insertCells, edit, insertAt. cbn [length app].
  rewrite !afterInsert_0, take_drop. destruct w, k; cbn; rewrite ?afterInsert_0; reflexivity.
Qed.

Lemma afterInsert_afterInsert (p n1 n2 : nat) (c : QTextCursor) :
  afterInsert (p + n1) n2 (afterInsert p n1 c) = afterInsert p (n1 + n2) c.
Proof.
  destruct c as [q kp]. unfold afterInsert, setPosition. cbn [position keepPositionOnInsert].
  destruct (Nat.ltb_spec p q).
  - cbn [position keepPositionOnInsert].
    destruct (Nat.ltb_spec (p + n1) (q + n1)); [f_equal; lia|lia].
  - destruct (Nat.eqb_spec p q) as [->|Hne].
    + destruct kp; cbn [position keepPositionOnInsert].
      * destruct (Nat.ltb_spec (q + n1) q); [lia|].
        destruct (Nat.eqb_spec (q + n1) q); reflexivity.
      * rewrite Nat.ltb_irrefl, Nat.eqb_refl. f_equal. lia.
    + cbn [position keepPositionOnInsert].
      destruct (Nat.ltb_spec (p + n1) q); [lia|].
      destruct (Nat.eqb_spec (p + n1) q); [lia|reflexivity].
Qed.

Lemma insertCells_app cs1 cs2 w k pre post :
  atCursor w k pre post ->
  insertCells cs2 (insertCells cs1 w k).1 (insertCells cs1 w k).2
  = insertCells (cs1 ++ cs2) w k.
Proof.
  intros Hat.
  pose proof (insertCells_atCursor cs1 w k pre post Hat) as (Hd1 & Hp1 & _).
  destruct Hat as (Hd & Hp & Hk).
  unfold insertCells at 1. rewrite Hp1, Hd1.
  unfold insertCells. rewrite Hp, Hd. unfold edit.
  cbn [fst snd document _cursor1 _cursor2 _lastCommandCursor].
  rewrite !length_app, !afterInsert_afterInsert.
  f_equal; [f_equal|].
  - unfold insertAt. rewrite <- length_app.
    rewrite !take_app_length, !drop_app_length, <- !app_assoc. reflexivity.
  - destruct k; [reflexivity|]. rewrite afterInsert_afterInsert. reflexivity.
Qed.

Lemma insertElems_render (elems : list elem) :
  forall format w k pre post,
    atCursor w k pre post ->
    insertElems elems format w k
    = (formatAfter elems format,
       (insertCells (render elems format) w k).1,
       (insertCells (render elems format) w k).2).
Proof.
  induction elems as [|[s|f|z] elems IH]; intros format w k pre post Hat;
    cbn [insertElems render formatAfter].
  - rewrite insertCells_nil. reflexivity.
  - unfold insertText.
    pose proof (insertCells_atCursor (styled s format) w k pre post Hat) as Hat1.
    rewrite (surjective_pairing (insertCells (styled s format) w k)).
    rewrite (IH _ _ _ _ _ Hat1).
    rewrite (insertCells_app _ _ _ _ _ _ Hat). reflexivity.
  - eapply IH; eauto.
  - eapply IH; eauto.
Qed.

Lemma insertElems_app (a b : list elem) :
  forall format w k,
    insertElems (a ++ b) format w k
    = insertElems b (insertElems a format w k).1.1 (insertElems a format w k).1.2
        (insertElems a format w k).2.
Proof.
  induction a as [|[s|f|z] a IH]; intros format w k; cbn [insertElems app fst snd].
  - reflexivity.
  - destruct (insertText s format w k) as [w1 k1]. apply IH.
  - apply IH.
  - apply IH.
Qed.

Lemma insertLines_elems (lines : list entry) :
  forall format w k r,
    insertLines lines format w k = inr r ->
    r = insertElems (flat_map elemsOf lines) format w k.
Proof.
  induction lines as [|line lines IH]; intros format w k r Hins; cbn [insertLines] in Hins.
  - injection Hins as <-. reflexivity.
  - cbn [flat_map]. rewrite insertElems_app.
    destruct (butLast line) as [?|elems] eqn:Hb; [discriminate|]. cbn [bind] in Hins.
    assert (elemsOf line = elems) as -> by (unfold elemsOf; rewrite Hb; reflexivity).
    destruct (insertElems elems format w k) as [[f1 w1] k1]. cbn [fst snd].
    apply IH. exact Hins.
Qed.

(** Only the first line makes [_shortenLines] edit the document. *)
Lemma shortenLine_later numLines indLine line st st' :
  shortenLine numLines indLine line st = inr st' ->
  indLine <> 0 ->
  shWidget st' = shWidget st /\ shCursor st' = shCursor st.
Proof.
  intros Hsh Hi. destruct st as [a c sh w k]. unfold shortenLine in Hsh.
  destruct (lastOf line) as [?|e]; [discriminate|]. cbn [bind] in Hsh.
  destruct (asInt e) as [?|z]; [discriminate|]. cbn [bind] in Hsh.
  destruct (hysteresis a z numLines indLine).
  - rewrite (proj2 (Z.eqb_neq indLine 0) Hi) in Hsh.
    destruct (butLast line) as [?|elems]; [discriminate|]. cbn [bind] in Hsh.
    destruct (shortenElems elems [] 0 sh) as [[ln p2] sh2].
    injection Hsh as <-. split; reflexivity.
  - injection Hsh as <-. split; reflexivity.
Qed.

Lemma shortenFrom_later numLines (lines : list entry) :
  forall indLine st st',
    shortenFrom numLines indLine lines st = inr st' ->
    0 < indLine ->
    shWidget st' = shWidget st /\ shCursor st' = shCursor st.
Proof.
  induction lines as [|line lines IH]; intros indLine st st' Hsh Hi; cbn [shortenFrom] in Hsh.
  - injection Hsh as <-. split; reflexivity.
  - destruct (shortenLine numLines indLine line st) as [?|st1] eqn:H1; [discriminate|].
    cbn [bind] in Hsh.
    destruct (shortenLine_later _ _ _ _ _ H1 ltac:(lia)) as [<- <-].
    apply (IH (indLine + 1)); [exact Hsh|lia].
Qed.

Lemma shortenLine_first numLines line st st' :
  shortenLine numLines 0 line st = inr st' ->
  (shWidget st' = shWidget st /\ shCursor st' = shCursor st)
  \/ (shWidget st' = (shortenExisting (column st) (shWidget st) (shCursor st)).1.2
      /\ shCursor st' = (shortenExisting (column st) (shWidget st) (shCursor st)).2).
Proof.
  intros Hsh. destruct st as [a c sh w k]. unfold shortenLine in Hsh.
  destruct (lastOf line) as [?|e]; [discriminate|]. cbn [bind] in Hsh.
  destruct (asInt e) as [?|z]; [discriminate|]. cbn [bind] in Hsh.
  destruct (hysteresis a z numLines 0).
  - change (0 =? 0) with true in Hsh. cbv iota in Hsh.
    cbn [column shWidget shCursor].
    destruct (shortenExisting c w k) as [[p1 w1] k1].
    destruct (butLast line) as [?|elems]; [discriminate|]. cbn [bind] in Hsh.
    destruct (shortenElems elems [] p1 sh) as [[ln p2] sh2].
    injection Hsh as <-. right. split; reflexivity.
  - injection Hsh as <-. left. split; reflexivity.
Qed.

Lemma shortenLines_widget a lines w k sh :
  _shortenLines a lines w k = inr sh ->
  let col := positionInBlock (document w) (position (current w k)) in
  (shWidget sh = w /\ shCursor sh = k)
  \/ (shWidget sh = (shortenExisting col w k).1.2
      /\ shCursor sh = (shortenExisting col w k).2).
Proof.
  intros Hsh col. unfold _shortenLines in Hsh. fold col in Hsh.
  destruct lines as [|line lines]; cbn [shortenFrom] in Hsh.
  - injection Hsh as <-. left. split; reflexivity.
  - destruct (shortenLine _ 0 line _) as [?|st1] eqn:H1; [discriminate|]. cbn [bind] in Hsh.
    destruct (shortenFrom_later _ _ _ _ _ Hsh ltac:(lia)) as [-> ->].
    apply shortenLine_first in H1. exact H1.
Qed.

(** ** Invariants of the loop of [writeText] *)

Section ScanFacts.
Context {digits : DigitTable}.



End ScanFacts.



(** ** The escape interpreter *)

Section EscapeFacts.
Context {digits : DigitTable}.

Lemma digit_value_0 : digit_value 48%N = Some 0.
Proof. rewrite digit_value_ascii; [reflexivity | lia]. Qed.

Lemma digit_value_m : digit_value 109%N = None.
Proof. apply digit_value_other. lia. Qed.

Lemma reFormatPattern_reset :
  reFormatPattern_match (ESC :: lit "[0m") = Some ([0], 4).
Proof.
  change (ESC :: lit "[0m") with [27; 91; 48; 109]%N.
  cbn. rewrite digit_value_0, digit_value_m. reflexivity.
Qed.

(** C9.  Whatever the current format, the sequence ESC [ 0 m is a
    complete sequence of length 4 whose format is the default format;
    interpreting it once more, from the format it gave, changes nothing. *)
Theorem parseFormat_reset_default (currentFormat defaultFormat : QTextCharFormat) :
  parseFormat (ESC :: lit "[0m") currentFormat defaultFormat = Some (defaultFormat, 4)
  /\ parseFormat (ESC :: lit "[0m") defaultFormat defaultFormat
     = parseFormat (ESC :: lit "[0m") currentFormat defaultFormat.
Proof.
  unfold parseFormat. rewrite reFormatPattern_reset. split; reflexivity.
Qed.

End EscapeFacts.

(** ** Empty and binary payloads *)

Lemma decode_nil_inv (bs : list N) : Utf8.decode bs = Some [] -> bs = [].
Proof.
  destruct bs as [|b0 r0]; [reflexivity|].
  cbn [Utf8.decode]. intros H.
  repeat case_match; simplify_eq;
    match type of H with
    | cons _ <$> ?o = Some [] => destruct o; discriminate H
    end.
Qed.

Section PayloadFacts.
Context {digits : DigitTable}.

(** C6 (amended).  An empty payload, text or bytes, leaves the shell as
    it is.  A bytes payload that is well-formed UTF-8 is written as the
    text it encodes; one that is not makes [write] raise
    [UnicodeDecodeError]. *)
Theorem write_empty_or_bytes (self : BaseShell) (prompt : Z)
    (color : option string) (sid : StreamId) :
  write self (Text []) prompt color sid = ret self
  /\ write self (Bytes []) prompt color sid = ret self
  /\ (forall b s, Utf8.decode (List.map Byte.to_N b) = Some s ->
        write self (Bytes b) prompt color sid = write self (Text s) prompt color sid)
  /\ (forall b, b <> [] -> Utf8.decode (List.map Byte.to_N b) = None ->
        write self (Bytes b) prompt color sid = raise UnicodeDecodeError).
Proof.
  repeat split.
  - intros b s Hdec. destruct b as [|b0 b'].
    + cbn in Hdec. injection Hdec as <-. reflexivity.
    + destruct s as [|c s'].
      * apply decode_nil_inv in Hdec. discriminate Hdec.
      * unfold write, decode_utf8. rewrite Hdec. reflexivity.
  - intros b Hb Hdec. destruct b as [|b0 b']; [congruence|].
    unfold write, decode_utf8. rewrite Hdec. reflexivity.
Qed.

End PayloadFacts.

(** The third and fourth parts of [write_empty_or_bytes] on the bytes of
    the letter A and on the byte 255. *)
Lemma write_empty_or_bytes_witness :
  write BaseShell_init (Bytes [Byte.x41]) 0 None None
  = write BaseShell_init (Text [65%N]) 0 None None
  /\ write BaseShell_init (Bytes [Byte.xff]) 0 None None = raise UnicodeDecodeError.
Proof.
  split.
  - apply (proj1 (proj2 (proj2 (write_empty_or_bytes BaseShell_init 0 None None)))).
    reflexivity.
  - apply (proj2 (proj2 (proj2 (write_empty_or_bytes BaseShell_init 0 None None)))).
    + discriminate.
    + reflexivity.
Defined.

(** C6, as stated, fails: a byte that is not UTF-8 is not replaced, the
    call raises. *)
Lemma write_invalid_bytes_raises :
  write BaseShell_init (Bytes [Byte.xff]) 0 None None = raise UnicodeDecodeError.
Proof. vm_compute. reflexivity. Qed.

(** ** Exceptions that leave [write] *)

Lemma length_times_nat {A} (x : A) (n : nat) : length (times_nat [x] n) = n.
Proof. induction n; cbn; congruence. Qed.

Lemma reSplit_VT_run (n : nat) :
  reSplit (times_nat [VT] (S n)) = [times_nat [VT] (S n)].
Proof.
  induction n as [|n IH]; [reflexivity|].
  change (times_nat [VT] (S (S n))) with (VT :: times_nat [VT] (S n)).
  cbn [reSplit]. rewrite IH. reflexivity.
Qed.

(** A line that ends with its end column is shortened without error. *)
Lemma shortenLine_Line (numLines indLine : Z) (l : list elem) (z : Z) (st : Shorten) :
  last l = Some (Int z) ->
  exists st', shortenLine numLines indLine (Line l) st = inr st'.
Proof.
  intros Hlast. destruct st as [a c sh w k]. unfold shortenLine.
  cbn [lastOf butLast]. rewrite Hlast. cbn [bind ret asInt].
  repeat case_match; eauto.
Qed.

(** A string in the place of a line: its last character is compared
    with 1024. *)
Lemma shortenFrom_loose (numLines indLine : Z) (l : list elem) (z : Z)
    (rest : list entry) (st : Shorten) :
  last l = Some (Int z) ->
  shortenFrom numLines indLine (Line l :: Loose (Str [LF]) :: rest) st
  = raise TypeError.
Proof.
  intros Hlast. cbn [shortenFrom].
  destruct (shortenLine_Line numLines indLine l z st Hlast) as [st' ->].
  destruct st'. reflexivity.
Qed.

Section RaiseFacts.
Context {digits : DigitTable}.

(** The lines of a run of two or more vertical tabs: after the first
    line, the list holds a string and an integer for each further tab. *)
Lemma scanText_VT_run (n : nat) (self : ShellWriter) (col lim : Z)
    (fmt : QTextCharFormat) :
  _unfinishedTail self = [] ->
  finishedLines (scanText self col lim (times_nat [VT] (S (S n))) fmt)
  = Line [Str [LF]; Int (col + 1)] :: Loose (Str [LF]) :: Loose (Int 1)
      :: List.map Loose (times_nat [Str [LF]; Int 1] n).
Proof.
  intros Htail. unfold scanText, splitTextOf, initialScan. rewrite Htail.
  cbn [str_eqb andb]. rewrite reSplit_VT_run.
  change (times_nat [VT] (S (S n))) with (VT :: VT :: times_nat [VT] n).
  cbn -[times_nat Z.add Z.sub Z.of_nat]. unfold times.
  replace (Z.to_nat (len (VT :: VT :: times_nat [VT] n) - 1))
    with (S (length (times_nat [VT] n))) by (unfold len; cbn [length]; lia).
  rewrite length_times_nat. reflexivity.
Qed.

(** C5, where the code departs from it.  A run of two or more vertical
    tabs makes [writeText] raise [TypeError], whatever the document and
    the column, as soon as no escape sequence or carriage return is
    pending and the assertion on the left limit holds. *)
Theorem vertical_tab_run_raises (n : nat) (self : ShellWriter) (w : Widget)
    (cursor : cursorRef) (leftLimitFirstRow : option Z) (fmt : QTextCharFormat) :
  _unfinishedTail self = [] ->
  (forall l, leftLimitFirstRow = Some l ->
             l <= positionInBlock (document w) (position (cursorOf w cursor))) ->
  writeText self w cursor leftLimitFirstRow (times_nat [VT] (S (S n))) fmt
  = raise TypeError.
Proof.
  intros Htail Hlim. unfold writeText.
  set (col := positionInBlock _ _) in *.
  assert (exists l a, (match leftLimitFirstRow with
                       | Some l => (l, _lineShorteningActive self)
                       | None => (col, false)
                       end) = (l, a) /\ l <= col) as (l & a & -> & Hl).
  { destruct leftLimitFirstRow as [l|]; eauto using Z.le_refl. }
  rewrite Z.geb_leb. rewrite (proj2 (Z.leb_le l col) Hl). cbn [negb].
  unfold applyScan, allLines. rewrite scanText_VT_run by assumption.
  match goal with |- (let '(_, _) := ?e in _) = _ => destruct e as [w' k'] end.
  unfold _shortenLines. cbn [app].
  erewrite shortenFrom_loose by reflexivity. reflexivity.
Qed.

(** One vertical tab goes straight down: the next row starts with as
    many spaces as the column. *)
Lemma vertical_tab_single (color : option string) :
  shown (write BaseShell_init (Text (lit "abc" ++ [VT] ++ lit "d")) 0 color None)
  = Some [lit "abc"; lit "   d"].
Proof. vm_compute. reflexivity. Qed.

(** C1, where the code departs from it.  Two texts for which an
    exception raised in [writeText] leaves [write]: two vertical tabs
    give [TypeError]; and after a long line was shortened, the recorded
    left limit (50) is to the right of the column of the cursor (10), so
    that the next text of the same stream fails the assertion. *)
Theorem write_raises :
  write BaseShell_init (Text [VT; VT]) 0 None None = raise TypeError
  /\ writes BaseShell_init
       [(Text (times (lit "b") 50), 0, None, Some 2%N);
        (Text (times (lit "a") 1000), 0, None, Some 1%N);
        (Text (lit "x"), 0, None, Some 1%N)]
     = raise AssertionError.
Proof. split; vm_compute; reflexivity. Qed.

End RaiseFacts.

(** [vertical_tab_run_raises] on the text of two vertical tabs, written
    by a new writer at the start of an empty document. *)
Lemma vertical_tab_run_raises_witness :
  writeText ShellWriter_init (widget BaseShell_init) Cursor1 None [VT; VT] emptyFormat
  = raise TypeError.
Proof.
  apply (vertical_tab_run_raises 0 ShellWriter_init (widget BaseShell_init) Cursor1
           None emptyFormat).
  - reflexivity.
  - intros l Hl. discriminate Hl.
Defined.

(** ** The reset of the line-shortening mode *)

Section ResetFacts.
Context {digits : DigitTable}.



(** The stream 1 writes 1025 characters, which switches the shortening
    on; once the stream 2 has written one character, 100 more characters
    of the stream 1 are not cut, although no short row was closed. *)
Lemma interleaved_stream_cancels_shortening :
  rowLengths (writes BaseShell_init
                [(Text (times (lit "a") 1025), 0, None, Some 1%N);
                 (Text (times (lit "y") 100), 0, None, Some 1%N)])
  = Some (times_nat [80%nat] 14 ++ [5%nat])
  /\ rowLengths (writes BaseShell_init
                   [(Text (times (lit "a") 1025), 0, None, Some 1%N);
                    (Text (lit "x"), 0, None, Some 2%N);
                    (Text (times (lit "y") 100), 0, None, Some 1%N)])
     = Some (times_nat [80%nat] 12 ++ [166%nat]).
Proof. split; vm_compute; reflexivity. Qed.

End ResetFacts.


(** ** Carriage returns and backspaces *)


(** The cursor that [applyScan] writes with. *)
Lemma workCursor_atCursor (w : Widget) (cursor : cursorRef) (pre post : QTextDocument) :
  document w = pre ++ post ->
  position (cursorOf w cursor) = length pre ->
  atCursor w (if keepPositionOnInsert (cursorOf w cursor)
              then Own (setKeepPositionOnInsert false (cursorOf w cursor))
              else Shared cursor) pre post.
Proof.
  intros Hd Hp. unfold atCursor.
  destruct (keepPositionOnInsert (cursorOf w cursor)) eqn:Hk; cbn; auto.
Qed.


Lemma shortenLine_off (numLines indLine : Z) (l : list elem) (z : Z) (st : Shorten) :
  last l = Some (Int z) ->
  hysteresis (active st) z numLines indLine = false ->
  shortenLine numLines indLine (Line l) st
  = ret {| active := false; column := column st;
           shortened := shortened st ++ [Line l];
           shWidget := shWidget st; shCursor := shCursor st |}.
Proof.
  intros Hlast Hh. destruct st as [a c sh w k]. unfold shortenLine.
  cbn [lastOf]. rewrite Hlast. cbn [bind ret asInt].
  cbn [active] in Hh. rewrite Hh. reflexivity.
Qed.



Section EraseFacts.
Context {digits : DigitTable}.












End EraseFacts.


(** ** Line shortening *)

Lemma clamp_index_in (n i : Z) : 0 <= i <= n -> clamp_index n i = i.
Proof.
  intros Hi. unfold clamp_index. destruct (Z.ltb_spec i 0); lia.
Qed.

Lemma slice_between {A} (s : list A) (a b : Z) :
  0 <= a <= b -> b <= len s ->
  slice s (Some a) (Some b) = take (Z.to_nat (b - a)) (drop (Z.to_nat a) s).
Proof.
  intros Ha Hb. unfold slice. cbn [default from_option id].
  rewrite !clamp_index_in by lia. reflexivity.
Qed.

Lemma slice_to {A} (s : list A) (b : Z) :
  0 <= b <= len s -> slice s None (Some b) = take (Z.to_nat b) s.
Proof.
  intros Hb. unfold slice. cbn [default from_option id].
  rewrite !clamp_index_in by lia. rewrite Z.sub_0_r. reflexivity.
Qed.

Lemma slice_from {A} (s : list A) (a : Z) :
  0 <= a <= len s -> slice s (Some a) None = drop (Z.to_nat a) s.
Proof.
  intros Ha. unfold slice. cbn [default from_option id].
  rewrite !clamp_index_in by lia.
  apply take_ge. rewrite length_drop. unfold len. lia.
Qed.

Lemma range_S (n : nat) : range (Z.of_nat (S n)) = range (Z.of_nat n) ++ [Z.of_nat n].
Proof.
  unfold range. rewrite !Nat2Z.id, seq_S, map_app. reflexivity.
Qed.






Lemma width_nonneg (a : list elem) : 0 <= width a.
Proof. induction a as [|[s|f|z] a IH]; cbn [width]; unfold len; lia. Qed.






Section ShorteningFacts.
Context {digits : DigitTable}.



End ShorteningFacts.



(** ** The prompt *)

Section PromptFacts.
Context {digits : DigitTable}.



Lemma positions_setKeep b1 b2 w :
  document (setKeep b1 b2 w) = document w
  /\ position (_cursor1 (setKeep b1 b2 w)) = position (_cursor1 w)
  /\ position (_cursor2 (setKeep b1 b2 w)) = position (_cursor2 w)
  /\ _lastCommandCursor (setKeep b1 b2 w) = _lastCommandCursor w.
Proof. repeat split. Qed.




End PromptFacts.



(** ** The tokens of a text *)

Lemma reSplit_cons (c : char) (y : str) :
  (exists t rest, reSplit y = t :: rest /\ (exists d t', t = d :: t' /\ joins c d = true)
                  /\ reSplit (c :: y) = (c :: t) :: rest)
  \/ (reSplit (c :: y) = [c] :: reSplit y
      /\ match reSplit y with (d :: _) :: _ => joins c d = false | _ => True end).
Proof.
  cbn [reSplit]. destruct (reSplit y) as [|[|d t] rest]; auto.
  destruct (joins c d) eqn:Hj; [left|right; auto].
  exists (d :: t), rest. eauto 6.
Qed.

Lemma joins_run (c d : char) :
  joins c d = true -> isRun c = true -> c = d /\ isSingle c = false.
Proof.
  unfold joins. destruct (isSingle c); [discriminate|]. intros H Hr. rewrite Hr in H.
  apply N.eqb_eq in H. auto.
Qed.

Lemma joins_plain (c d : char) :
  joins c d = true -> isRun c = false ->
  isSingle c = false /\ isPlain d = true.
Proof.
  unfold joins. destruct (isSingle c); [discriminate|]. intros H Hr. rewrite Hr in H. auto.
Qed.

Lemma isPlain_class (d : char) : isPlain d = true -> isSingle d = false /\ isRun d = false.
Proof. unfold isPlain. intros H. apply negb_true_iff, orb_false_iff in H. exact H. Qed.

Lemma joins_token (c d : char) (t : str) :
  joins c d = true -> isToken (d :: t) = true -> isToken (c :: d :: t) = true.
Proof.
  intros Hj Ht. destruct (isRun c) eqn:Hr.
  - destruct (joins_run _ _ Hj Hr) as [<- Hs]. cbn [isToken] in *.
    rewrite Hs, Hr in *. cbn [forallb]. rewrite N.eqb_refl. exact Ht.
  - destruct (joins_plain _ _ Hj Hr) as [Hs Hd].
    destruct (isPlain_class _ Hd) as [Hds Hdr]. cbn [isToken] in *.
    rewrite Hs, Hr. rewrite Hds, Hdr in Ht. cbn [forallb]. rewrite Hd. exact Ht.
Qed.

Lemma joins_same (c d e : char) (t : str) :
  joins c d = true -> isToken (d :: t) = true -> joins c e = joins d e.
Proof.
  intros Hj Ht. destruct (isRun c) eqn:Hr.
  - destruct (joins_run _ _ Hj Hr) as [<- Hs]. reflexivity.
  - destruct (joins_plain _ _ Hj Hr) as [Hs Hd].
    destruct (isPlain_class _ Hd) as [Hds Hdr]. unfold joins. rewrite Hs, Hr, Hds, Hdr.
    reflexivity.
Qed.

Lemma isToken_single (c : char) : isToken [c] = true.
Proof. cbn. destruct (isSingle c); [reflexivity|]. destruct (isRun c); reflexivity. Qed.

Lemma reSplit_spec (s : str) :
  concat (reSplit s) = s
  /\ forallb isToken (reSplit s) = true
  /\ maximalTokens (reSplit s) = true.
Proof.
  induction s as [|c s (IHc & IHt & IHm)]; [repeat split|].
  destruct (reSplit_cons c s) as [(t & rest & Hy & (d & t' & -> & Hj) & ->)|[-> Hn]].
  - rewrite Hy in IHc, IHt, IHm. cbn [concat forallb] in *.
    apply andb_true_iff in IHt as [Ht Hrest].
    split; [cbn [app] in *; rewrite <- IHc; reflexivity|]. split.
    + rewrite (joins_token _ _ _ Hj Ht), Hrest. reflexivity.
    + destruct rest as [|[|e u] rest]; try exact IHm.
      cbn [maximalTokens] in *. rewrite (joins_same c d e t' Hj Ht). exact IHm.
  - cbn [concat forallb]. rewrite isToken_single, IHt. split; [rewrite IHc; reflexivity|].
    split; [reflexivity|]. destruct (reSplit s) as [|[|d u] rest]; try exact IHm.
    cbn [maximalTokens]. rewrite Hn. exact IHm.
Qed.

(** X1.  The tokens that [writeText] cuts a text into give the text
    back when they are put together; each of them is one line break,
    tab or escape character, a run of vertical tabs, of carriage
    returns or of backspaces, or text without any of these characters
    (so none is empty); and no token could be longer: two runs of the
    same character or two pieces of text never follow each other. *)
Theorem reSplit_tokens (s : str) :
  concat (reSplit s) = s
  /\ forallb isToken (reSplit s) = true
  /\ maximalTokens (reSplit s) = true.
Proof. exact (reSplit_spec s). Qed.

(** ** The chunks of a long string *)

Lemma chunks_concat_any (t : str) (cs j : nat) :
  (j * cs <= length t)%nat ->
  concat (List.map (fun i => take cs (drop (Z.to_nat (i * Z.of_nat cs)) t)) (range (Z.of_nat j)))
  = take (j * cs) t.
Proof.
  induction j as [|j IH]; intros Hj.
  - reflexivity.
  - rewrite range_S, map_app, concat_app, IH by lia. cbn [List.map concat].
    rewrite app_nil_r.
    replace (Z.to_nat (Z.of_nat j * Z.of_nat cs)) with (j * cs)%nat by lia.
    replace (S j * cs)%nat with (j * cs + cs)%nat by lia.
    rewrite <- take_take_drop. reflexivity.
Qed.

(** X2.  [_splitStringIntoChunks] cuts a string at an offset within it
    into pieces that give the string back: the piece up to the offset,
    as many chunks of exactly [chunkSize] characters as fit into what
    follows, and a remnant shorter than a chunk. *)
Theorem splitStringIntoChunks_partition (s : str) (offset chunkSize : Z) :
  0 <= offset <= len s -> 0 < chunkSize ->
  let r := _splitStringIntoChunks s offset chunkSize in
  r.1.1 ++ concat r.1.2 ++ r.2 = s
  /\ len r.1.1 = offset
  /\ len r.1.2 = (len s - offset) / chunkSize
  /\ Forall (fun c => len c = chunkSize) r.1.2
  /\ len r.2 = (len s - offset) mod chunkSize.
Proof.
  intros Hoff Hcs. unfold _splitStringIntoChunks. cbn [fst snd].
  set (n := len s) in *. set (m := (n - offset) `div` chunkSize).
  assert (0 <= m) by (apply Z.div_pos; lia).
  pose proof (Z.mul_div_le (n - offset) chunkSize ltac:(lia)) as Hm.
  pose proof (Z.mod_pos_bound (n - offset) chunkSize ltac:(lia)) as Hr.
  pose proof (Z.div_mod (n - offset) chunkSize ltac:(lia)) as Hdm. fold m in Hdm, Hm.
  rewrite slice_to, slice_from by (fold n; lia).
  set (t := drop (Z.to_nat offset) s).
  assert (length t = Z.to_nat (n - offset)) as Ht
    by (unfold t, n, len in *; rewrite length_drop; lia).
  assert (Hch : List.map (fun i => slice s (Some (offset + i * chunkSize))
                                          (Some (offset + (i + 1) * chunkSize)))
                  (range m)
                = List.map (fun i => take (Z.to_nat chunkSize)
                                       (drop (Z.to_nat (i * Z.of_nat (Z.to_nat chunkSize))) t))
                    (range m)).
  { apply map_ext_in. intros i Hi. unfold range in Hi. apply in_map_iff in Hi as (x & <- & Hx).
    apply in_seq in Hx.
    rewrite slice_between by (fold n; nia).
    unfold t. rewrite drop_drop. f_equal; [lia|]. f_equal. lia. }
  rewrite Hch. replace m with (Z.of_nat (Z.to_nat m)) by lia.
  split; [|split; [|split; [|split]]].
  - rewrite chunks_concat_any by nia.
    replace (drop (Z.to_nat (offset + Z.of_nat (Z.to_nat m) * chunkSize)) s)
      with (drop (Z.to_nat m * Z.to_nat chunkSize) t).
    + rewrite (take_drop (Z.to_nat m * Z.to_nat chunkSize) t). unfold t. apply take_drop.
    + unfold t. rewrite drop_drop. f_equal. nia.
  - unfold len. rewrite length_take. unfold n, len in *. lia.
  - unfold len, range. rewrite !length_map, length_seq. lia.
  - apply Forall_forall. intros c Hc. apply list_elem_of_In in Hc.
    apply in_map_iff in Hc as (i & <- & Hi).
    unfold range in Hi. apply in_map_iff in Hi as (x & <- & Hx). apply in_seq in Hx.
    unfold len. rewrite length_take, length_drop. nia.
  - unfold len. rewrite length_drop. unfold n, len in *. nia.
Qed.

(** [splitStringIntoChunks_partition] on a string of eight characters
    cut at the offset 2 into chunks of three. *)
Lemma splitStringIntoChunks_partition_witness :
  let r := _splitStringIntoChunks (lit "abcdefgh") 2 3 in
  r.1.1 ++ concat r.1.2 ++ r.2 = lit "abcdefgh"
  /\ len r.1.1 = 2
  /\ len r.1.2 = (len (lit "abcdefgh") - 2) / 3
  /\ Forall (fun c => len c = 3) r.1.2
  /\ len r.2 = (len (lit "abcdefgh") - 2) mod 3.
Proof.
  apply (splitStringIntoChunks_partition (lit "abcdefgh") 2 3).
  - vm_compute. split; discriminate.
  - lia.
Defined.

(** ** Escape sequences *)

Lemma format_ext (f g : QTextCharFormat) :
  fontWeight f = fontWeight g -> fontItalic f = fontItalic g ->
  fontUnderline f = fontUnderline g -> foreground f = foreground g -> f = g.
Proof. destruct f, g. cbn. congruence. Qed.

Section FormatFacts.
Context {digits : DigitTable}.

Lemma applyParam_fields (d : QTextCharFormat) (p : Z) :
  setsOrKeeps fontWeight (fun f => applyParam d f p)
  /\ setsOrKeeps fontItalic (fun f => applyParam d f p)
  /\ setsOrKeeps fontUnderline (fun f => applyParam d f p)
  /\ setsOrKeeps foreground (fun f => applyParam d f p).
Proof.
  unfold setsOrKeeps, applyParam.
  repeat match goal with
         | |- context [if ?b then _ else _] => destruct b
         | |- context [match ?x with Some _ => _ | None => _ end] => destruct x
         end;
    repeat split; cbn; eauto.
Qed.

Lemma setsOrKeeps_fold {A} (proj : QTextCharFormat -> A) (d : QTextCharFormat) :
  (forall p, setsOrKeeps proj (fun f => applyParam d f p)) ->
  forall ps, setsOrKeeps proj (fun f => fold_left (applyParam d) ps f).
Proof.
  intros Hstep ps. induction ps as [|p ps IH]; [right; reflexivity|].
  cbn [fold_left]. destruct IH as [[c Hc]|Hk].
  - left. exists c. intros f. apply Hc.
  - destruct (Hstep p) as [[c Hc]|Hk'].
    + left. exists c. intros f. rewrite Hk. apply Hc.
    + right. intros f. rewrite Hk. apply Hk'.
Qed.

Lemma setsOrKeeps_twice {A} (proj : QTextCharFormat -> A) F f :
  setsOrKeeps proj F -> proj (F (F f)) = proj (F f).
Proof. intros [[c Hc]|Hk]; [rewrite !Hc; reflexivity | apply Hk]. Qed.

(** X3.  Interpreting a complete escape sequence once more changes
    nothing: whatever its parameters, [parseFormat] applied to the
    format it returned returns that format again. *)
Theorem parseFormat_twice (text : str) (currentFormat defaultFormat format : QTextCharFormat)
    (matchLen : Z) :
  parseFormat text currentFormat defaultFormat = Some (format, matchLen) ->
  parseFormat text format defaultFormat = Some (format, matchLen).
Proof.
  unfold parseFormat. destruct (reFormatPattern_match text) as [[ps n]|]; [|discriminate].
  intros [= <- <-]. f_equal. f_equal.
  apply format_ext; apply setsOrKeeps_twice, setsOrKeeps_fold; intros p;
    apply (applyParam_fields defaultFormat p).
Qed.

Lemma reParams_prefix (s : str) : forall st seen k ps n,
  reParams st seen k s = Some (ps, n) ->
  k < n <= k + len s
  /\ (st = NeedDigit -> k + 2 <= n)
  /\ last (take (Z.to_nat (n - k)) s) = Some 109%N
  /\ forall u, reParams st seen k (take (Z.to_nat (n - k)) s ++ u) = Some (ps, n).
Proof.
  induction s as [|c s IH]; intros st seen k ps n H; [discriminate|].
  cbn [reParams] in H.
  assert (Hlen : len (c :: s) = len s + 1 /\ 0 <= len s) by (unfold len; cbn [length]; lia).
  assert (Hrec : forall st' seen',
            reParams st' seen' (k + 1) s = Some (ps, n) ->
            (forall u, reParams st seen k (c :: u) = reParams st' seen' (k + 1) u) ->
            k < n <= k + len (c :: s)
            /\ (st = NeedDigit -> k + 2 <= n)
            /\ last (take (Z.to_nat (n - k)) (c :: s)) = Some 109%N
            /\ forall u, reParams st seen k (take (Z.to_nat (n - k)) (c :: s) ++ u)
                         = Some (ps, n)).
  { intros st' seen' H' Hc. destruct (IH _ _ _ _ _ H') as (Hn & _ & Hl & Hu).
    replace (Z.to_nat (n - k)) with (S (Z.to_nat (n - (k + 1)))) by lia.
    cbn [take app]. split; [lia|]. split; [lia|]. split.
    - destruct (take (Z.to_nat (n - (k + 1))) s) eqn:Ht; [discriminate Hl|].
      rewrite last_cons, Hl. reflexivity.
    - intros u. rewrite Hc. apply Hu. }
  destruct (digit_value c) as [v|] eqn:Hd, st as [|m].
  - eapply Hrec; [exact H|]. intros u. cbn [reParams]. rewrite Hd. reflexivity.
  - eapply Hrec; [exact H|]. intros u. cbn [reParams]. rewrite Hd. reflexivity.
  - discriminate.
  - destruct (N.eqb c 59) eqn:H59.
    + eapply Hrec; [exact H|]. intros u. cbn [reParams]. rewrite Hd, H59. reflexivity.
    + destruct (N.eqb c 109) eqn:H109; [|discriminate].
      injection H as <- <-. apply N.eqb_eq in H109. subst c.
      replace (Z.to_nat (k + 1 - k)) with 1%nat by lia. cbn [take app].
      split; [lia|]. split; [discriminate|]. split; [reflexivity|].
      intros u. cbn [reParams]. rewrite Hd. reflexivity.
Qed.

(** X4.  When [parseFormat] finds an escape sequence, the sequence is
    the first [matchLen] characters of the text: at least four, from
    the escape character and the bracket to the letter m; and the
    result depends on these characters only, whatever follows them. *)
Theorem parseFormat_prefix (text : str) (currentFormat defaultFormat format : QTextCharFormat)
    (matchLen : Z) :
  parseFormat text currentFormat defaultFormat = Some (format, matchLen) ->
  4 <= matchLen <= len text
  /\ (exists body, take (Z.to_nat matchLen) text = [ESC; 91%N] ++ body ++ [109%N])
  /\ forall rest,
       parseFormat (take (Z.to_nat matchLen) text ++ rest) currentFormat defaultFormat
       = Some (format, matchLen).
Proof.
  unfold parseFormat, reFormatPattern_match.
  destruct text as [|c0 [|c1 rest]]; try discriminate.
  destruct (N.eqb c0 ESC && N.eqb c1 91) eqn:Hc; [|discriminate].
  apply andb_true_iff in Hc as [->%N.eqb_eq ->%N.eqb_eq].
  destruct (reParams NeedDigit [] 2 rest) as [[ps n]|] eqn:Hp; [|discriminate].
  intros [= <- <-].
  destruct (reParams_prefix _ _ _ _ _ _ Hp) as (Hn & Hn2 & Hl & Hu).
  specialize (Hn2 eq_refl).
  replace (Z.to_nat n) with (S (S (Z.to_nat (n - 2)))) by lia. cbn [take app].
  split; [unfold len in *; cbn [length] in *; lia|]. split.
  - apply last_Some in Hl as [body Hl]. exists body. rewrite Hl. reflexivity.
  - intros u. change (N.eqb ESC ESC && N.eqb 91 91) with true. cbv iota.
    rewrite Hu. reflexivity.
Qed.

End FormatFacts.

(** [parseFormat_twice] on the sequence for bold red, read from the
    empty format. *)
Lemma parseFormat_twice_witness :
  let bold_red := setForeground "#dc322f"%string (setFontWeight Bold emptyFormat) in
  parseFormat (ESC :: lit "[1;31m") bold_red emptyFormat = Some (bold_red, 7).
Proof.
  intros bold_red.
  apply (parseFormat_twice (ESC :: lit "[1;31m") emptyFormat emptyFormat bold_red 7).
  vm_compute. reflexivity.
Defined.

(** [parseFormat_prefix] on the sequence for red followed by text:
    another text after the sequence gives the same result. *)
Lemma parseFormat_prefix_witness :
  let red := setForeground "#dc322f"%string emptyFormat in
  parseFormat (ESC :: lit "[31m" ++ lit "xyz") emptyFormat emptyFormat = Some (red, 5).
Proof.
  intros red.
  destruct (parseFormat_prefix (ESC :: lit "[31m" ++ lit "abc")
              emptyFormat emptyFormat red 5) as (_ & _ & H).
  - vm_compute. reflexivity.
  - exact (H (lit "xyz")).
Defined.

(** ** Writing without line shortening *)

Lemma hysteresis_idle (z numLines indLine : Z) :
  z <= 1024 -> hysteresis false z numLines indLine = false.
Proof.
  intros Hz. unfold hysteresis. destruct (Z.gtb_spec z 1024); [lia|].
  destruct (_ && _); reflexivity.
Qed.

Lemma shortenFrom_idle (lines : list entry) : forall numLines indLine st,
  active st = false ->
  Forall (endsWithin 1024) lines ->
  shortenFrom numLines indLine lines st
  = ret {| active := false; column := column st; shortened := shortened st ++ lines;
           shWidget := shWidget st; shCursor := shCursor st |}.
Proof.
  induction lines as [|line lines IH]; intros numLines indLine st Ha Hall.
  - cbn [shortenFrom]. rewrite app_nil_r. destruct st. cbn in *. subst. reflexivity.
  - apply Forall_cons in Hall as [(l & z & -> & Hl & Hz) Hall]. cbn [shortenFrom].
    rewrite (shortenLine_off _ _ _ z) by (try exact Hl; rewrite Ha; apply hysteresis_idle, Hz).
    cbn [bind ret]. rewrite IH by (reflexivity || exact Hall).
    cbn [column shortened shWidget shCursor]. rewrite <- app_assoc. reflexivity.
Qed.

Lemma shortenLines_idle (lines : list entry) (w : Widget) (k : workCursor) :
  Forall (endsWithin 1024) lines ->
  _shortenLines false lines w k
  = ret {| active := false;
           column := positionInBlock (document w) (position (current w k));
           shortened := lines; shWidget := w; shCursor := k |}.
Proof. intros Hall. unfold _shortenLines. rewrite shortenFrom_idle by (reflexivity || exact Hall). reflexivity. Qed.

Lemma endsWithin_elemsOf bound line :
  endsWithin bound line -> butLast line = inr (elemsOf line).
Proof. intros (l & z & -> & _). reflexivity. Qed.

Lemma insertLines_total (lines : list entry) : forall format w k,
  Forall (fun line => exists l, line = Line l) lines ->
  insertLines lines format w k = inr (insertElems (flat_map elemsOf lines) format w k).
Proof.
  induction lines as [|line lines IH]; intros format w k Hall; [reflexivity|].
  apply Forall_cons in Hall as [(l & ->) Hall]. cbn [insertLines butLast bind ret flat_map].
  rewrite insertElems_app. change (elemsOf (Line l)) with (removelast l).
  destruct (insertElems (removelast l) format w k) as [[f1 w1] k1]. cbn [fst snd].
  apply IH, Hall.
Qed.

Section IdleFacts.
Context {digits : DigitTable}.

(** The second half of [writeText] when the mode is off and no line is
    long: the characters back to the lowest column are removed and the
    lines are written as they are. *)
Lemma applyScan_idle self st col w cursor fmt pre post :
  document w = pre ++ post ->
  position (cursorOf w cursor) = length pre ->
  Forall (endsWithin 1024) (allLines st) ->
  let n := Z.max 0 (col - lowestPosInFirstBlock st) in
  let k0 := if keepPositionOnInsert (cursorOf w cursor)
            then Own (setKeepPositionOnInsert false (cursorOf w cursor))
            else Shared cursor in
  let pre' := take (length pre - Z.to_nat n) pre in
  let cells := render (flat_map elemsOf (allLines st)) (default fmt (_currentFormat self)) in
  exists w1 k1,
    atCursor w1 k1 pre' post
    /\ (w1, k1) = (if col - lowestPosInFirstBlock st >? 0
                   then removeLeft (col - lowestPosInFirstBlock st) w k0 else (w, k0))
    /\ applyScan self false st col w cursor fmt
       = inr (leftLimit st,
              {| _currentFormat := Some (currentFormat st);
                 _unfinishedTail := unfinishedTailNew st;
                 _lineShorteningActive := false |},
              (insertCells cells w1 k1).1)
    /\ atCursor (insertCells cells w1 k1).1 (insertCells cells w1 k1).2 (pre' ++ cells) post.
Proof.
  intros Hd Hp Hall n k0 pre' cells.
  pose proof (workCursor_atCursor w cursor pre post Hd Hp) as Hat. fold k0 in Hat.
  assert (exists w1 k1,
            (if col - lowestPosInFirstBlock st >? 0
             then removeLeft (col - lowestPosInFirstBlock st) w k0 else (w, k0)) = (w1, k1)
            /\ atCursor w1 k1 pre' post) as (w1 & k1 & Hrm & Hat1).
  { subst pre' n. destruct (Z.gtb_spec (col - lowestPosInFirstBlock st) 0).
    - pose proof (removeLeft_atCursor (col - lowestPosInFirstBlock st) w k0 pre post Hat) as H1.
      rewrite Z.max_r by lia.
      destruct (removeLeft _ w k0) as [w1 k1]. eauto.
    - exists w, k0. split; [reflexivity|]. rewrite Z.max_l by lia.
      rewrite Nat.sub_0_r, firstn_all. exact Hat. }
  exists w1, k1. split; [exact Hat1|]. split; [symmetry; exact Hrm|]. split.
  - unfold applyScan. fold k0. rewrite Hrm.
    rewrite shortenLines_idle by exact Hall. cbn [bind ret shortened shWidget shCursor active].
    rewrite insertLines_total.
    + rewrite (insertElems_render _ _ _ _ _ _ Hat1). cbn [bind ret]. reflexivity.
    + eapply Forall_impl; [exact Hall|]. intros line (l & z & -> & _). eauto.
  - apply insertCells_atCursor, Hat1.
Qed.

End IdleFacts.

(** ** Ordinary text *)

Lemma render_app (a b : list elem) : forall f,
  render (a ++ b) f = render a f ++ render b (formatAfter a f).
Proof.
  induction a as [|[s|g|z] a IH]; intros f; cbn [render formatAfter app]; rewrite ?IH, ?app_assoc;
    reflexivity.
Qed.

Lemma formatAfter_app (a b : list elem) : forall f,
  formatAfter (a ++ b) f = formatAfter b (formatAfter a f).
Proof. induction a as [|[s|g|z] a IH]; intros f; cbn [formatAfter app]; rewrite ?IH; reflexivity. Qed.

Lemma removelast_snoc {A} (l : list A) (x : A) : removelast (l ++ [x]) = l.
Proof. apply removelast_last. Qed.

Lemma written_allLines (st : Scan) : flat_map elemsOf (allLines st) = written st.
Proof.
  unfold allLines, written. rewrite flat_map_app. cbn [flat_map]. rewrite app_nil_r.
  unfold elemsOf at 2. cbn [butLast]. rewrite removelast_snoc. reflexivity.
Qed.

Lemma isPlain_tests (c : char) :
  isPlain c = true ->
  in_str c _linebreaks = false /\ N.eqb c TAB = false /\ N.eqb c VT = false
  /\ N.eqb c CR = false /\ N.eqb c BS = false /\ N.eqb c ESC = false.
Proof.
  unfold isPlain, isSingle, isRun. intros H.
  apply negb_true_iff in H. apply orb_false_iff in H as [H1 H2].
  apply orb_false_iff in H1 as [H1 H3]. apply orb_false_iff in H1 as [H1 H4].
  apply orb_false_iff in H2 as [H2 H5]. apply orb_false_iff in H2 as [H2 H6].
  repeat split; assumption.
Qed.

Section OrdinaryFacts.
Context {digits : DigitTable}.

Lemma step_plain fmt (s rest : list _) st :
  s <> [] -> forallb isPlain s = true ->
  step fmt s rest st
  = ({| ll := ll st ++ [Str s]; finishedLines := finishedLines st;
        posInBlock := posInBlock st + len s; leftLimit := leftLimit st;
        lowestPosInFirstBlock := lowestPosInFirstBlock st;
        unfinishedTailNew := unfinishedTailNew st; currentFormat := currentFormat st |}, None).
Proof.
  intros Hne Hs. destruct s as [|c s]; [congruence|]. cbn [forallb] in Hs.
  apply andb_true_iff in Hs as [Hc _].
  destruct (isPlain_tests c Hc) as (H1 & H2 & H3 & H4 & H5 & H6).
  destruct st. unfold step. rewrite H1, H2, H3, H4, H5, H6. reflexivity.
Qed.

Lemma step_linebreak fmt (c : char) (rest : list str) st :
  in_str c _linebreaks = true ->
  step fmt [c] rest st
  = ({| ll := [];
        finishedLines := finishedLines st ++ [Line (ll st ++ [Str [LF]; Int (posInBlock st + 1)])];
        posInBlock := 0; leftLimit := 0;
        lowestPosInFirstBlock := lowestPosInFirstBlock st;
        unfinishedTailNew := unfinishedTailNew st; currentFormat := currentFormat st |}, None).
Proof. intros Hc. destruct st. unfold step. rewrite Hc. reflexivity. Qed.

Lemma shownAs_plain (s : str) : forallb isPlain s = true -> List.map shownAs s = s.
Proof.
  induction s as [|c s IH]; [reflexivity|]. cbn [forallb List.map].
  intros [Hc Hs]%andb_true_iff. rewrite IH by exact Hs.
  unfold shownAs. rewrite (proj1 (isPlain_tests c Hc)). reflexivity.
Qed.

Lemma linebreak_plain (s : str) :
  forallb isPlain s = true -> existsb (fun c => in_str c _linebreaks) s = false.
Proof.
  induction s as [|c s IH]; [reflexivity|]. cbn [forallb existsb].
  intros [Hc Hs]%andb_true_iff. rewrite IH by exact Hs.
  rewrite (proj1 (isPlain_tests c Hc)). reflexivity.
Qed.

(** One ordinary token: its characters go to the end of the lines. *)
Lemma step_ordinary fmt (s : str) (rest : list str) st (B : Z) :
  ordinaryToken s = true ->
  Forall (endsWithin B) (finishedLines st) ->
  0 <= posInBlock st -> posInBlock st + len s <= B ->
  exists st1,
    step fmt s rest st = (st1, None)
    /\ written st1 = written st ++ [Str (List.map shownAs s)]
    /\ Forall (endsWithin B) (finishedLines st1)
    /\ 0 <= posInBlock st1 <= posInBlock st + len s
    /\ lowestPosInFirstBlock st1 = lowestPosInFirstBlock st
    /\ unfinishedTailNew st1 = unfinishedTailNew st
    /\ currentFormat st1 = currentFormat st
    /\ leftLimit st1
       = if existsb (fun c => in_str c _linebreaks) s then 0 else leftLimit st.
Proof.
  intros Hs Hfin Hpos HB. destruct s as [|c s]; [discriminate|]. cbn [ordinaryToken] in Hs.
  destruct (in_str c _linebreaks) eqn:Hc.
  - destruct s; [|discriminate]. rewrite step_linebreak by exact Hc.
    eexists. split; [reflexivity|]. unfold written.
    cbn [ll finishedLines posInBlock lowestPosInFirstBlock unfinishedTailNew currentFormat
         leftLimit List.map existsb].
    rewrite Hc. cbn [orb]. unfold shownAs. rewrite Hc.
    assert (len [c] = 1) as Hl by reflexivity. rewrite Hl in *.
    repeat split; try lia.
    + rewrite flat_map_app, app_nil_r. cbn [flat_map]. rewrite app_nil_r.
      unfold elemsOf at 2. cbn [butLast].
      replace (removelast (ll st ++ [Str [LF]; Int (posInBlock st + 1)]))
        with (ll st ++ [Str [LF]])
        by (symmetry; apply (removelast_snoc (ll st ++ [Str [LF]]) (Int (posInBlock st + 1)))
            || (rewrite <- (removelast_snoc (ll st ++ [Str [LF]]) (Int (posInBlock st + 1))),
                  <- app_assoc; reflexivity)).
      rewrite <- app_assoc. reflexivity.
    + apply Forall_app. split; [exact Hfin|]. apply Forall_singleton.
      exists (ll st ++ [Str [LF]; Int (posInBlock st + 1)]), (posInBlock st + 1).
      split; [reflexivity|]. split; [|lia].
      change (ll st ++ [Str [LF]; Int (posInBlock st + 1)])
        with (ll st ++ [Str [LF]] ++ [Int (posInBlock st + 1)]).
      rewrite app_assoc. apply last_snoc.
  - rewrite step_plain by (discriminate || exact Hs).
    eexists. split; [reflexivity|]. unfold written.
    cbn [ll finishedLines posInBlock lowestPosInFirstBlock unfinishedTailNew currentFormat
         leftLimit].
    rewrite (shownAs_plain _ Hs), (linebreak_plain _ Hs).
    assert (0 <= len (c :: s)) by (unfold len; lia).
    repeat split; try lia; try assumption. rewrite app_assoc. reflexivity.
Qed.

Lemma loopFrom_ordinary fmt (f : QTextCharFormat) (B : Z) (rest : list str) :
  forall s st,
    Forall (fun t => ordinaryToken t = true) (s :: rest) ->
    Forall (endsWithin B) (finishedLines st) ->
    0 <= posInBlock st -> posInBlock st + len (concat (s :: rest)) <= B ->
    let st' := loopFrom fmt s rest st in
    render (written st') f
    = render (written st) f
        ++ styled (List.map shownAs (concat (s :: rest))) (formatAfter (written st) f)
    /\ Forall (endsWithin B) (finishedLines st')
    /\ 0 <= posInBlock st' <= B
    /\ lowestPosInFirstBlock st' = lowestPosInFirstBlock st
    /\ unfinishedTailNew st' = unfinishedTailNew st
    /\ currentFormat st' = currentFormat st
    /\ leftLimit st'
       = if existsb (fun c => in_str c _linebreaks) (concat (s :: rest)) then 0
         else leftLimit st.
Proof.
  induction rest as [|next rest IH]; intros s st Htok Hfin Hpos HB;
    apply Forall_cons in Htok as [Hs Hrest]; cbn [concat] in HB |- *.
  - rewrite app_nil_r in *. cbn [loopFrom].
    destruct (step_ordinary fmt s [] st B Hs Hfin Hpos HB)
      as (st1 & -> & Hw & Hf1 & Hp1 & Hl1 & Ht1 & Hc1 & Hll1).
    cbn zeta. rewrite Hw, render_app. cbn [render]. rewrite app_nil_r.
    repeat split; try assumption; lia.
  - assert (len (s ++ concat (next :: rest)) = len s + len (concat (next :: rest))) as Hlen
      by (unfold len; rewrite length_app; lia).
    assert (0 <= len (concat (next :: rest))) by (unfold len; lia).
    cbn [concat] in Hlen, H. rewrite Hlen in HB.
    cbn [loopFrom].
    destruct (step_ordinary fmt s (next :: rest) st B Hs Hfin Hpos ltac:(lia))
      as (st1 & -> & Hw & Hf1 & Hp1 & Hl1 & Ht1 & Hc1 & Hll1).
    cbn [default from_option id].
    destruct (IH next st1 Hrest Hf1 ltac:(lia) ltac:(cbn [concat]; lia))
      as (Hr & Hf2 & Hp2 & Hl2 & Ht2 & Hc2 & Hll2).
    cbn zeta. cbn [concat] in *.
    split; [|split; [|split; [|split; [|split; [|split]]]]];
      try assumption; try congruence.
    + rewrite Hr, Hw, render_app, formatAfter_app. cbn [render formatAfter].
      rewrite app_nil_r, <- app_assoc. unfold styled. rewrite !map_app. reflexivity.
    + rewrite Hll2, Hll1, (existsb_app _ s (next ++ concat rest)).
      destruct (existsb _ s), (existsb _ (next ++ concat rest)); reflexivity.
Qed.

End OrdinaryFacts.

Lemma isRun_not_linebreak (c : char) : isRun c = true -> in_str c _linebreaks = false.
Proof.
  unfold isRun. intros H. apply orb_true_iff in H as [H|H]; [apply orb_true_iff in H as [H|H]|];
    apply N.eqb_eq in H; subst c; reflexivity.
Qed.

Lemma ordinary_token (t : str) :
  isToken t = true -> forallb ordinary t = true -> ordinaryToken t = true.
Proof.
  destruct t as [|c t]; [discriminate|]. cbn [isToken forallb ordinaryToken].
  intros Htok [Hc Ht]%andb_true_iff. unfold ordinary in Hc.
  destruct (in_str c _linebreaks) eqn:Hlb.
  - unfold isSingle in Htok. rewrite Hlb in Htok. exact Htok.
  - rewrite orb_false_r in Hc. destruct (isPlain_class c Hc) as [Hs Hr].
    rewrite Hs, Hr in Htok. rewrite Hc. exact Htok.
Qed.

Lemma reSplit_ordinary (s : str) :
  forallb ordinary s = true ->
  Forall (fun t => ordinaryToken t = true) (reSplit s).
Proof.
  intros Hs. destruct (reSplit_spec s) as (Hc & Ht & _).
  rewrite <- Hc in Hs. revert Ht Hs. generalize (reSplit s). clear.
  induction l as [|t l IH]; cbn [forallb concat]; [constructor|].
  intros [Ht Hl]%andb_true_iff Hs. rewrite forallb_app in Hs.
  apply andb_true_iff in Hs as [Hs1 Hs2].
  constructor; [apply ordinary_token; assumption | apply IH; assumption].
Qed.

Section OrdinaryText.
Context {digits : DigitTable}.

Lemma loop_ordinary fmt (f : QTextCharFormat) (B : Z) (toks : list str) (st : Scan) :
  Forall (fun t => ordinaryToken t = true) toks ->
  Forall (endsWithin B) (finishedLines st) ->
  0 <= posInBlock st -> posInBlock st + len (concat toks) <= B ->
  let st' := loop fmt toks st in
  render (written st') f
  = render (written st) f
      ++ styled (List.map shownAs (concat toks)) (formatAfter (written st) f)
  /\ Forall (endsWithin B) (allLines st')
  /\ lowestPosInFirstBlock st' = lowestPosInFirstBlock st
  /\ unfinishedTailNew st' = unfinishedTailNew st
  /\ currentFormat st' = currentFormat st
  /\ leftLimit st'
     = if existsb (fun c => in_str c _linebreaks) (concat toks) then 0 else leftLimit st.
Proof.
  intros Htok Hfin Hpos HB.
  assert (Hlast : forall st', Forall (endsWithin B) (finishedLines st') ->
            posInBlock st' <= B -> Forall (endsWithin B) (allLines st')).
  { intros st' H1 H2. unfold allLines. apply Forall_app. split; [exact H1|].
    apply Forall_singleton. exists (ll st' ++ [Int (posInBlock st')]), (posInBlock st').
    split; [reflexivity|]. split; [apply last_snoc|exact H2]. }
  destruct toks as [|s rest].
  - cbn [loop concat List.map existsb] in *. unfold styled. cbn [List.map].
    rewrite app_nil_r. assert (len (@nil char) = 0) as Hl by reflexivity.
    rewrite Hl in HB. repeat split; try reflexivity. apply Hlast; [exact Hfin|lia].
  - cbn [loop].
    destruct (loopFrom_ordinary fmt f B rest s st Htok Hfin Hpos HB)
      as (Hr & Hf & Hp & Hl & Ht & Hc & Hll).
    repeat split; try assumption. apply Hlast; [exact Hf|lia].
Qed.

(** X5.  Text made of line breaks and of characters that are no
    delimiter, written when nothing is pending, the mode is off and the
    row stays within 1024 columns, goes into the document as it is, at
    the cursor and in the current format of the writer, every line
    break as a line feed; nothing else changes.  The new left limit is
    0 after a line break, and the old one otherwise. *)
Theorem writeText_ordinary_text self w cursor lim text fmt pre post :
  _unfinishedTail self = [] ->
  forallb ordinary text = true ->
  document w = pre ++ post ->
  position (cursorOf w cursor) = length pre ->
  let col := Z.of_nat (column_after 0 pre) in
  let L := default col lim in
  L <= col -> col + len text <= 1024 ->
  (lim = None \/ _lineShorteningActive self = false) ->
  let f0 := default fmt (_currentFormat self) in
  exists w',
    writeText self w cursor lim text fmt
    = inr (if existsb (fun c => in_str c _linebreaks) text then 0 else L,
           {| _currentFormat := Some f0; _unfinishedTail := [];
              _lineShorteningActive := false |},
           w')
    /\ document w' = pre ++ styled (List.map shownAs text) f0 ++ post.
Proof.
  intros Htail Htext Hd Hp col L HL Hlen Hoff f0. unfold writeText.
  assert (positionInBlock (document w) (position (cursorOf w cursor)) = col) as ->.
  { unfold positionInBlock. rewrite Hd, Hp, take_app_length. reflexivity. }
  assert ((match lim with
           | Some l => (l, _lineShorteningActive self)
           | None => (col, false)
           end) = (L, false)) as ->.
  { subst L. destruct lim as [l|]; cbn; [|reflexivity].
    destruct Hoff as [?| ->]; [discriminate|reflexivity]. }
  rewrite Z.geb_leb, (proj2 (Z.leb_le L col)) by lia. cbn [negb].
  unfold scanText, splitTextOf. rewrite Htail. cbn [str_eqb andb].
  assert (Hst0 : initialScan self col L fmt
                 = {| ll := []; finishedLines := []; posInBlock := col; leftLimit := L;
                      lowestPosInFirstBlock := col; unfinishedTailNew := [];
                      currentFormat := f0 |}).
  { unfold initialScan. rewrite Htail. reflexivity. }
  rewrite Hst0. set (st0 := Build_Scan _ _ _ _ _ _ _).
  destruct (reSplit_spec text) as (Hcat & _ & _).
  destruct (loop_ordinary fmt f0 1024 (reSplit text) st0) as (Hr & Hall & Hlow & Ht & Hc & Hll).
  { apply reSplit_ordinary, Htext. }
  { constructor. }
  { cbn. lia. }
  { rewrite Hcat. cbn [posInBlock st0]. exact Hlen. }
  rewrite Hcat in Hr, Hll.
  cbn [st0 written finishedLines ll flat_map app render formatAfter lowestPosInFirstBlock
       unfinishedTailNew currentFormat leftLimit] in Hr, Hlow, Ht, Hc, Hll.
  set (st := loop fmt (reSplit text) st0) in *.
  destruct (applyScan_idle self st col w cursor fmt pre post Hd Hp Hall)
    as (w1 & k1 & Hat1 & Hrm & Happ & Hat2).
  rewrite Happ, Hll, Hc, Ht. eexists. split; [reflexivity|].
  destruct Hat2 as (Hd2 & _). rewrite Hd2, written_allLines. fold f0. rewrite Hr.
  rewrite Hlow, Z.sub_diag. cbn [Z.max Z.to_nat]. rewrite Nat.sub_0_r, firstn_all.
  rewrite <- app_assoc. reflexivity.
Qed.

End OrdinaryText.

(** [writeText_ordinary_text] on two rows written by a new writer into
    an empty document. *)
Lemma writeText_ordinary_text_witness :
  exists w',
    writeText ShellWriter_init (widget BaseShell_init) Cursor1 None
      (lit "ab" ++ [8232%N] ++ lit "c") emptyFormat
    = inr (0, {| _currentFormat := Some emptyFormat; _unfinishedTail := [];
                 _lineShorteningActive := false |}, w')
    /\ document w' = [] ++ styled (lit "ab" ++ [LF] ++ lit "c") emptyFormat ++ [].
Proof.
  apply (writeText_ordinary_text ShellWriter_init (widget BaseShell_init) Cursor1 None
           (lit "ab" ++ [8232%N] ++ lit "c") emptyFormat [] []).
  - reflexivity.
  - reflexivity.
  - reflexivity.
  - reflexivity.
  - cbn. lia.
  - vm_compute. discriminate.
  - left. reflexivity.
Defined.

(** ** When [writeText] returns *)









Section ReturnFacts.
Context {digits : DigitTable}.





End ReturnFacts.




Section ReturnTheorem.
Context {digits : DigitTable}.


End ReturnTheorem.


(** ** The prompt while text is written before it *)

Lemma followsAll_refl w k : followsAll w k w k.
Proof. intros r n H. exact H. Qed.

Lemma followsAll_trans w k w1 k1 w2 k2 :
  followsAll w k w1 k1 -> followsAll w1 k1 w2 k2 -> followsAll w k w2 k2.
Proof. intros H1 H2 r n H. apply H2, H1, H. Qed.

Lemma breakExisting_behind (m : nat) :
  forall (w : Widget) (k : workCursor) (a b post : QTextDocument) r n,
    atCursor w k a (b ++ post) ->
    (80 * m <= length b)%nat ->
    behindCursor w k r (length b + n) ->
    behindCursor (breakExisting m w k).1 (breakExisting m w k).2 r (length b - 80 * m + n).
Proof.
  induction m as [|m IH]; intros w k a b post r n Hat Hlen Hr.
  - cbn [breakExisting fst snd]. rewrite Nat.mul_0_r, Nat.sub_0_r. exact Hr.
  - cbn [breakExisting].
    pose proof (take_drop 80 b) as Hb.
    assert (length (take 80 b) = 80%nat) as Hlen1 by (rewrite length_take; lia).
    set (b1 := take 80 b) in *. set (b2 := drop 80 b) in *.
    assert (Hat1 : atCursor w k a (b1 ++ b2 ++ post)) by (rewrite app_assoc, Hb; exact Hat).
    apply moveRight_atCursor in Hat1.
    assert (len b1 = shortLineLength) as Hl by (unfold len; rewrite Hlen1; reflexivity).
    rewrite Hl in Hat1.
    assert (Hbeh1 : behindCursor (moveRight shortLineLength w k).1
                      (moveRight shortLineLength w k).2 r (length b2 + n)).
    { unfold moveRight. destruct Hat as (Hd & Hp & Hk).
      eapply moveTo_behind; [exact Hr|].
      rewrite Hd, Hp, !length_app. unfold b2. rewrite length_drop.
      unfold shortLineLength. lia. }
    destruct (moveRight shortLineLength w k) as [w1 k1]. cbn [fst snd] in *.
    unfold insertNewline.
    set (cs := [(LF, charFormat (document w1) (position (current w1 k1)))]).
    pose proof (insertCells_atCursor cs w1 k1 _ _ Hat1) as Hat2.
    pose proof (insertCells_behind cs w1 k1 r _ _ _ Hat1 Hbeh1) as Hbeh2.
    destruct (insertCells cs w1 k1) as [w2 k2]. cbn [fst snd] in *.
    assert (80 * m <= length b2)%nat as Hlen2 by (unfold b2; rewrite length_drop; lia).
    pose proof (IH w2 k2 ((a ++ b1) ++ cs) b2 post r n Hat2 Hlen2 Hbeh2) as H3.
    replace (length b - 80 * S m + n)%nat with (length b2 - 80 * m + n)%nat; [exact H3|].
    unfold b2. rewrite length_drop. lia.
Qed.

Lemma shortenExisting_follows (w : Widget) (k : workCursor) (pre post : QTextDocument) :
  atCursor w k pre post ->
  let r := shortenExisting (Z.of_nat (column_after 0 pre)) w k in
  followsAll w k r.1.2 r.2.
Proof.
  intros Hat. unfold shortenExisting.
  set (col := Z.of_nat (column_after 0 pre)).
  destruct (Z.gtb_spec col shortLineLength) as [Hgt|Hle]; [|apply followsAll_refl].
  intros c n Hc.
  destruct (column_after_split pre) as (d1 & d2 & Hpre & Hlen & H0 & Hall).
  assert (len d2 = col) as Hl by (unfold len, col; lia).
  rewrite Hpre in Hat.
  pose proof (moveLeft_atCursor w k d1 d2 post Hat) as Hat1.
  assert (Hbeh1 : behindCursor (moveLeft col w k).1 (moveLeft col w k).2 c (length d2 + n)).
  { unfold moveLeft. destruct Hat as (Hd & Hp & Hk).
    eapply moveTo_behind; [exact Hc|].
    rewrite Hp, length_app. unfold col. lia. }
  rewrite Hl in Hat1.
  destruct (moveLeft col w k) as [w1 k1]. cbn [fst snd] in *.
  set (m := Z.to_nat (col `div` shortLineLength)).
  assert (80 * m <= length d2)%nat as Hm.
  { unfold m, shortLineLength in *.
    pose proof (Z.mul_div_le col 80 ltac:(lia)). lia. }
  destruct (breakExisting_spec m w1 k1 d1 d2 post Hat1 Hm) as (a' & Hat2 & _).
  pose proof (breakExisting_behind m w1 k1 d1 d2 post c n Hat1 Hm Hbeh1) as Hbeh2.
  assert (len (drop (80 * m) d2) = col `mod` shortLineLength) as Hrem.
  { unfold len. rewrite length_drop. unfold m, shortLineLength in *.
    pose proof (Z.div_mod col 80 ltac:(lia)).
    pose proof (Z.div_pos col 80 ltac:(lia) ltac:(lia)). lia. }
  destruct (breakExisting m w1 k1) as [w2 k2]. cbn [fst snd] in *.
  unfold moveRight. destruct Hat2 as (Hd & Hp & Hk).
  cbn [fst snd].
  pose proof (moveTo_behind (Nat.min (position (current w2 k2)
                                      + Z.to_nat (col `mod` shortLineLength))
                               (length (document w2))) w2 k2 c _ n Hbeh2) as H3.
  destruct (moveTo _ w2 k2) as [w3 k3]. cbn [fst snd] in *. apply H3.
  rewrite Hd, Hp, !length_app, length_drop.
  unfold len in Hrem. rewrite length_drop in Hrem. lia.
Qed.

Lemma insertCells_follows cs w k pre post :
  atCursor w k pre post -> followsAll w k (insertCells cs w k).1 (insertCells cs w k).2.
Proof. intros Hat r n Hr. eapply insertCells_behind; eauto. Qed.

Lemma removeLeft_follows m w k :
  followsAll w k (removeLeft m w k).1 (removeLeft m w k).2.
Proof. intros r n Hr. apply removeLeft_behind, Hr. Qed.

Lemma shortenLines_follows a lines w k sh pre post :
  _shortenLines a lines w k = inr sh ->
  atCursor w k pre post ->
  followsAll w k (shWidget sh) (shCursor sh).
Proof.
  intros Hsh Hat. apply shortenLines_widget in Hsh. cbn zeta in Hsh.
  rewrite (positionInBlock_atCursor _ _ _ _ Hat) in Hsh.
  destruct Hsh as [[-> ->]|[-> ->]]; [apply followsAll_refl|].
  apply (shortenExisting_follows w k pre post Hat).
Qed.

Section FollowFacts.
Context {digits : DigitTable}.

Lemma applyScan_follows self a st col w cursor fmt l self' w' pre post :
  applyScan self a st col w cursor fmt = inr (l, self', w') ->
  document w = pre ++ post ->
  position (cursorOf w cursor) = length pre ->
  keepPositionOnInsert (cursorOf w cursor) = false ->
  exists pre', atCursor w' (Shared cursor) pre' post
               /\ followsAll w (Shared cursor) w' (Shared cursor).
Proof.
  intros Happ Hd Hp Hk. unfold applyScan in Happ. rewrite Hk in Happ.
  assert (Hat : atCursor w (Shared cursor) pre post) by (split; [|split]; assumption).
  set (n := col - lowestPosInFirstBlock st) in *.
  assert (exists w1 k1, (if n >? 0 then removeLeft n w (Shared cursor) else (w, Shared cursor)) = (w1, k1)
                        /\ keepsAnchor post w (Shared cursor) w1 k1
                        /\ followsAll w (Shared cursor) w1 k1) as (w1 & k1 & Hrm & Hk1 & Hf1).
  { destruct (n >? 0).
    - pose proof (removeLeft_keeps n w (Shared cursor) pre post Hat).
      pose proof (removeLeft_follows n w (Shared cursor)).
      destruct (removeLeft n w (Shared cursor)) as [w1 k1]. eauto.
    - eexists _, _. split; [reflexivity|]. split; [eapply keepsAnchor_refl; eauto|].
      apply followsAll_refl. }
  rewrite Hrm in Happ.
  destruct (_shortenLines a _ w1 k1) as [?|sh] eqn:Hsh; [discriminate|]. cbn [bind] in Happ.
  destruct Hk1 as ((pre1 & Hat1) & Hr1 & Hb1).
  pose proof (shortenLines_keeps _ _ _ _ _ _ _ Hsh Hat1) as Hk2.
  pose proof (shortenLines_follows _ _ _ _ _ _ _ Hsh Hat1) as Hf2.
  destruct (insertLines (shortened sh) _ (shWidget sh) (shCursor sh)) as [?|[[f3 w3] k3]] eqn:Hins;
    [discriminate|]. cbn [bind] in Happ. injection Happ as <- <- <-.
  destruct Hk2 as ((pre2 & Hat2) & Hr2 & Hb2).
  pose proof (insertLines_keeps _ _ _ _ _ _ _ _ _ Hat2 Hins) as Hk3.
  apply insertLines_elems in Hins.
  rewrite (insertElems_render _ _ _ _ _ _ Hat2) in Hins.
  pose proof (f_equal (fun x : QTextCharFormat * Widget * workCursor => x.1.2) Hins) as Hw3.
  pose proof (f_equal (fun x : QTextCharFormat * Widget * workCursor => x.2) Hins) as Hk3'.
  cbn beta in Hw3, Hk3'. cbn [fst snd] in Hw3, Hk3'.
  pose proof (insertCells_follows (render (flat_map elemsOf (shortened sh))
                                     (default fmt (_currentFormat self)))
                _ _ _ _ Hat2) as Hf3.
  rewrite <- Hw3, <- Hk3' in Hf3.
  destruct Hk3 as ((pre3 & Hat3) & Hr3 & Hb3).
  assert (k3 = Shared cursor) as -> by (apply Hr3, Hr2, Hr1; reflexivity).
  exists pre3. split; [exact Hat3|].
  eapply followsAll_trans; [exact Hf1|]. eapply followsAll_trans; [exact Hf2|exact Hf3].
Qed.

Lemma write_before_follows (self : BaseShell) text color sid self' pre prompt post :
  write self text 0 color sid = inr self' ->
  document (widget self) = pre ++ prompt ++ post ->
  position (_cursor1 (widget self)) = length pre ->
  position (_cursor2 (widget self)) = (length pre + length prompt)%nat ->
  exists pre',
    document (widget self') = pre' ++ prompt ++ post
    /\ position (_cursor1 (widget self')) = length pre'
    /\ position (_cursor2 (widget self')) = (length pre' + length prompt)%nat.
Proof.
  intros Hw Hd Hp1 Hp2. unfold write in Hw.
  destruct (isEmpty text).
  { injection Hw as <-. eauto. }
  destruct (match text with Text s => ret s | Bytes b => decode_utf8 b end) as [?|t];
    [discriminate|].
  cbn [bind] in Hw. change (0 =? 0) with true in Hw. cbv iota in Hw.
  match type of Hw with
  | context [writeText ?a ?b ?c ?d ?e ?f] =>
      destruct (writeText a b c d e f) as [?|[[l wr] w']] eqn:Hwt; [discriminate|]
  end.
  cbn [bind ret] in Hw. injection Hw as <-. cbn [widget].
  unfold writeText in Hwt.
  destruct (match leftLimitFor _ _ with Some l0 => _ | None => _ end) as [L a].
  destruct (negb _); [discriminate|].
  apply (applyScan_follows _ _ _ _ _ _ _ _ _ _ pre (prompt ++ post)) in Hwt;
    [|exact Hd|exact Hp1|reflexivity].
  destruct Hwt as (pre' & (Hd' & Hp' & _) & Hf).
  specialize (Hf Cursor2 (length prompt)). destruct Hf as (_ & Hb & _).
  { split; [discriminate|]. split; [|reflexivity]. cbn. lia. }
  exists pre'. cbn in *. repeat split; [assumption|assumption|lia].
Qed.

(** X7.  Whatever is written before the prompt, and however often,
    the text of the prompt and the text after it (the command being
    typed) stay as they are, and the two cursors of the prompt still
    enclose the text of the prompt: only the text before the prompt
    changes. *)
Theorem writes_before_keep_prompt calls :
  forall (self self' : BaseShell) pre prompt post,
    Forall (fun c : payload * Z * option string * StreamId => c.1.1.2 = 0) calls ->
    writes self calls = inr self' ->
    document (widget self) = pre ++ prompt ++ post ->
    position (_cursor1 (widget self)) = length pre ->
    position (_cursor2 (widget self)) = (length pre + length prompt)%nat ->
    exists pre',
      document (widget self') = pre' ++ prompt ++ post
      /\ position (_cursor1 (widget self')) = length pre'
      /\ position (_cursor2 (widget self')) = (length pre' + length prompt)%nat.
Proof.
  induction calls as [|[[[text p] color] sid] calls IH];
    intros self self' pre prompt post Hall Hw Hd Hp1 Hp2; cbn [writes] in Hw.
  - injection Hw as <-. eauto.
  - apply Forall_cons in Hall as [Hc Hall]. cbn in Hc. subst p.
    destruct (write self text 0 color sid) as [?|self1] eqn:H1; [discriminate|].
    cbn [bind] in Hw.
    destruct (write_before_follows _ _ _ _ _ _ _ _ H1 Hd Hp1 Hp2) as (pre1 & Hd1 & Hq1 & Hq2).
    eapply IH; eauto.
Qed.

End FollowFacts.

(** [writes_before_keep_prompt] on a shell that shows some output, the
    prompt and a command being typed, when two more texts arrive. *)
Lemma writes_before_keep_prompt_witness :
  let self :=
    {| widget :=
         {| document := styled (lit "out>>> ls") emptyFormat;
            _cursor1 := {| position := 3; keepPositionOnInsert := true |};
            _cursor2 := {| position := 7; keepPositionOnInsert := true |};
            _lastCommandCursor := {| position := 0; keepPositionOnInsert := true |} |};
       _shellWriters := ∅;
       _cursor1_lastStreamStart := None |} in
  let calls := [(Text (lit "ab" ++ [LF] ++ lit "c"), 0, None, None);
                (Text ([BS] ++ lit "d"), 0, None, None)] in
  exists self' pre',
    writes self calls = inr self'
    /\ document (widget self')
       = pre' ++ styled (lit ">>> ") emptyFormat ++ styled (lit "ls") emptyFormat
    /\ position (_cursor1 (widget self')) = length pre'
    /\ position (_cursor2 (widget self')) = (length pre' + 4)%nat.
Proof.
  intros self calls.
  destruct (writes self calls) as [e|self'] eqn:Hw.
  - vm_compute in Hw. discriminate Hw.
  - destruct (writes_before_keep_prompt calls self self'
                (styled (lit "out") emptyFormat) (styled (lit ">>> ") emptyFormat)
                (styled (lit "ls") emptyFormat)) as (pre' & H1 & H2 & H3).
    + repeat constructor.
    + exact Hw.
    + reflexivity.
    + reflexivity.
    + reflexivity.
    + exists self', pre'. auto.
Defined.
